(** * Bulk-Watermark: the client-side processing controller, the file
      classifier and the configuration store

    A shallow embedding of the TypeScript sources

    - [src/types/watermark.ts]            (module [Types]),
    - [src/hooks/useFileSelection.ts]     (module [FileSelection]),
    - [src/hooks/useWatermarkStore.ts]    (module [WatermarkStore]),
    - [src/utils/canvas.ts]               (module [Canvas]),
    - the PreviewCanvas component         (module [PreviewCanvas]),
    - [src/hooks/useWatermarkProcessor.ts] (module [Processor]; the hook's
      source follows its test suite in
      [src/hooks/__tests__/useWatermarkProcessor.test.ts]),

    - [src/components/ProcessingPanel.tsx] (module [ProcessingPanel]),
    - the ProgressDisplay component       (module [ProgressDisplay]),
    - the ResultsSummary component        (module [ResultsSummary]),
    - the WatermarkControls component of [src/components/FileList.tsx]
      (module [WatermarkControls]),
    - [src/pages/Home.tsx]                (module [Home]),

    together with the few JavaScript built-ins they call (module [JS]).
    The modules whose names end in [Facts] hold the theorems.

    Conventions.  A JavaScript string is a [string]; each [ascii] stands for
    one UTF-16 code unit below 256, so the built-ins [trim] and
    [toLowerCase] are the ECMAScript ones restricted to that range.  A
    JavaScript number that carries an index is a [Z]; a coordinate is a [Q]
    (only comparisons, [Math.min] and [Math.max] are applied to it).  A
    JavaScript [Map] is an association list in insertion order. *)

From Stdlib Require Import List String Ascii Bool Arith ZArith QArith Qminmax Lia.
From Stdlib Require Import Qabs Lqa.
From Stdlib Require Import Sorting.Sorted Sorting.Permutation.
Import ListNotations.

Local Close Scope Q_scope.
Local Open Scope string_scope.
Local Open Scope list_scope.
Local Open Scope nat_scope.

(* ================================================================== *)
(** * JavaScript built-ins used by the sources                          *)
(* ================================================================== *)

Module JS.

(** ** Strings *)

Definition code (c : ascii) : nat := nat_of_ascii c.

(** [WhiteSpace] and [LineTerminator] code units below 256: TAB, LF, VT,
    FF, CR, SP and NBSP.  These are what [String.prototype.trim] strips. *)
Definition isWhiteSpace (c : ascii) : bool :=
  let n := code c in
  ((9 <=? n) && (n <=? 13)) || (n =? 32) || (n =? 160).

Fixpoint trimStart (s : string) : string :=
  match s with
  | EmptyString => EmptyString
  | String c rest => if isWhiteSpace c then trimStart rest else s
  end.

(** Strips trailing white space: a character is dropped when it is white
    space and everything after it has been dropped. *)
Fixpoint trimEnd (s : string) : string :=
  match s with
  | EmptyString => EmptyString
  | String c rest =>
      match trimEnd rest with
      | EmptyString => if isWhiteSpace c then EmptyString else String c EmptyString
      | kept => String c kept
      end
  end.

(** [s.trim()] *)
Definition trim (s : string) : string := trimEnd (trimStart s).

(** [!s] for a string [s]: only the empty string is falsy. *)
Definition falsy (s : string) : bool :=
  match s with
  | EmptyString => true
  | String _ _ => false
  end.

(** Truthiness of a [string | null]. *)
Definition truthy (o : option string) : bool :=
  match o with
  | Some s => negb (falsy s)
  | None => false
  end.

(** One code unit of [s.toLowerCase()]: A-Z and the Latin-1 capitals
    (0xC0-0xDE without the multiplication sign 0xD7) move up by 32. *)
Definition lowerChar (c : ascii) : ascii :=
  let n := code c in
  if ((65 <=? n) && (n <=? 90))
     || ((192 <=? n) && (n <=? 222) && negb (n =? 215))
  then ascii_of_nat (n + 32)
  else c.

Fixpoint toLowerCase (s : string) : string :=
  match s with
  | EmptyString => EmptyString
  | String c rest => String (lowerChar c) (toLowerCase rest)
  end.

Fixpoint allChars (p : ascii -> bool) (s : string) : bool :=
  match s with
  | EmptyString => true
  | String c rest => p c && allChars p rest
  end.

(** [s.split(re)] for a regular expression [re] that matches exactly one
    character, those satisfying [sep].  The result is never empty. *)
Fixpoint split (sep : ascii -> bool) (s : string) : list string :=
  match s with
  | EmptyString => [EmptyString]
  | String c rest =>
      if sep c then EmptyString :: split sep rest
      else
        match split sep rest with
        | [] => [String c EmptyString]
        | seg :: segs => String c seg :: segs
        end
  end.

(** [xs[xs.length - 1] ?? dflt] *)
Definition lastOr {A} (xs : list A) (dflt : A) : A := List.last xs dflt.

(** [xs.includes(x)] on an array of strings. *)
Definition includes (xs : list string) (x : string) : bool :=
  existsb (String.eqb x) xs.

(** ** Numbers *)

(** [Math.min(a, b)] and [Math.max(a, b)] on coordinates. *)
Definition Math_min (a b : Q) : Q := Qmin a b.
Definition Math_max (a b : Q) : Q := Qmax a b.

(** ** Map, in insertion order *)

Section MapOps.
Context {V : Type}.

Definition Map := list (string * V).

(** [m.get(k)] *)
Fixpoint get (m : Map) (k : string) : option V :=
  match m with
  | [] => None
  | (k', v) :: rest => if String.eqb k k' then Some v else get rest k
  end.

(** [m.set(k, v)]: an existing key keeps its place and takes the new
    value, a new key goes to the end. *)
Fixpoint set (m : Map) (k : string) (v : V) : Map :=
  match m with
  | [] => [(k, v)]
  | (k', v') :: rest =>
      if String.eqb k k' then (k', v) :: rest
      else (k', v') :: set rest k v
  end.

(** [Array.from(m.values())] *)
Definition values (m : Map) : list V := List.map snd m.

Definition keys (m : Map) : list string := List.map fst m.
End MapOps.

Arguments Map : clear implicits.

(** ** Array.prototype.sort with a numeric comparator

    [xs.sort((a, b) => key(a) - key(b))].  The sort is stable: an element
    is placed after the elements already there with the same key. *)
Section Sort.
Context {A : Type} (key : A -> Z).

Fixpoint insertSorted (x : A) (xs : list A) : list A :=
  match xs with
  | [] => [x]
  | y :: ys =>
      if (key x - key y <? 0)%Z then x :: y :: ys
      else y :: insertSorted x ys
  end.

Definition sort (xs : list A) : list A :=
  List.fold_left (fun acc x => insertSorted x acc) xs [].
End Sort.


(** [xs.join(sep)] on an array of strings. *)
Fixpoint join (sep : string) (xs : list string) : string :=
  match xs with
  | [] => EmptyString
  | [x] => x
  | x :: rest => x ++ sep ++ join sep rest
  end.

(** [a || b] on strings. *)
Definition orElse (a b : string) : string := if falsy a then b else a.

End JS.

(* ================================================================== *)
(** * src/types/watermark.ts                                            *)
(* ================================================================== *)

Module Types.

Inductive WatermarkPosition :=
| top_left | top_center | top_right
| center_left | center | center_right
| bottom_left | bottom_center | bottom_right.

Inductive WatermarkType := text_type | image_type.

Inductive PositionMode := preset | custom.

Record Point := { px : Q; py : Q }.

Record WatermarkConfig := {
  watermarkType : WatermarkType;
  text : string;
  imagePath : option string;          (* string | null *)
  position : WatermarkPosition;
  opacity : Z;
  textColor : string;
  fontSize : Z;
  fontFamily : string;
  imageScale : option Z;              (* imageScale?: number *)
  positionMode : option PositionMode; (* positionMode?: ... *)
  customPosition : option Point       (* customPosition?: {x, y} *)
}.

Inductive MediaKind := image | video.

Record FileItem := {
  path : string;
  name : string;
  type : MediaKind;
  size : option Z
}.

Definition DEFAULT_WATERMARK_CONFIG : WatermarkConfig := {|
  watermarkType := text_type;
  text := "Watermark";
  imagePath := None;
  position := bottom_right;
  opacity := 80%Z;
  textColor := "#ffffff";
  fontSize := 48%Z;
  fontFamily := "Arial";
  imageScale := Some 20%Z;
  positionMode := Some preset;
  customPosition := None
|}.

Inductive ProcessingStatus := success | failed | skipped.

Record FileResult := {
  inputPath : string;
  outputPath : option string;
  status : ProcessingStatus;
  fr_error : option string
}.

Record BatchResult := {
  files : list FileResult;
  total : Z;
  successful : Z;
  br_failed : Z
}.

Inductive ProgressStatus := st_processing | st_complete | st_error.

Record ProgressPayload := {
  filePath : string;
  fileIndex : Z;
  totalFiles : Z;
  pstatus : ProgressStatus
}.

Inductive ProcessingState := idle | processing | complete | error | cancelled.

End Types.

(* ================================================================== *)
(** * src/hooks/useFileSelection.ts                                     *)
(* ================================================================== *)

Module FileSelection.
Import Types.

Definition IMAGE_EXTENSIONS : list string :=
  ["png"; "jpg"; "jpeg"; "gif"; "bmp"; "webp"].
Definition VIDEO_EXTENSIONS : list string :=
  ["mp4"; "avi"; "mov"; "mkv"; "webm"; "flv"].

Definition isDot (c : ascii) : bool := Ascii.eqb c ".".
Definition isSlash (c : ascii) : bool := Ascii.eqb c "/" || Ascii.eqb c "\".

(** [/\.([^.]+)$/.exec(s)], the capture group of the leftmost match: a
    dot followed, up to the end of [s], by one or more characters that
    are not dots. *)
Fixpoint execExtension (s : string) : option string :=
  match s with
  | EmptyString => None
  | String c rest =>
      if isDot c && negb (JS.falsy rest) && JS.allChars (fun d => negb (isDot d)) rest
      then Some rest
      else execExtension rest
  end.

Definition getExtension (path : string) : string :=
  match execExtension path with
  | Some m => JS.toLowerCase m
  | None => ""
  end.

Definition toFileItem (path : string) : FileItem :=
  let segments := JS.split isSlash path in
  let name := JS.lastOr segments path in
  let extension := getExtension name in
  let type := if JS.includes IMAGE_EXTENSIONS extension then image else video in
  {| path := path; name := name; type := type; size := None |}.

(** The classification as the specification words it: image exactly for
    the image extensions, video exactly for the video extensions (so a
    path with any other extension gets neither kind). *)
Definition spec_classification (p : string) : Prop :=
  let item := toFileItem p in
  (type item = image <-> In (getExtension (name item)) IMAGE_EXTENSIONS) /\
  (type item = video <-> In (getExtension (name item)) VIDEO_EXTENSIONS).

(** What the file dialog ([open]) resolves to: [null], one path, or an
    array of paths. *)
Inductive DialogResult :=
| dismissed
| onePath (p : string)
| manyPaths (ps : list string).

(** [!result] *)
Definition noResult (result : DialogResult) : bool :=
  match result with
  | dismissed => true
  | onePath p => JS.falsy p
  | manyPaths _ => false
  end.

(** [Array.isArray(result) ? result : [result]] *)
Definition asArray (result : DialogResult) : list string :=
  match result with
  | dismissed => []
  | onePath p => [p]
  | manyPaths ps => ps
  end.

(** [new Set(current.map(file => file.path)).has(p)] *)
Definition existingPathsHas (current : list FileItem) (p : string) : bool :=
  List.existsb (String.eqb p) (List.map path current).

(** The state update of [selectFiles], for what the dialog resolved to. *)
Definition selectFiles (current : list FileItem) (result : DialogResult)
  : list FileItem :=
  if noResult result then current
  else
    let files := asArray result in
    let newItems :=
      List.map toFileItem
        (List.filter (fun p => negb (existingPathsHas current p)) files) in
    current ++ newItems.

(** What [selectWatermarkImage] returns. *)
Definition selectWatermarkImage (result : DialogResult) : option string :=
  if noResult result then None
  else
    match result with
    | manyPaths ps => List.nth_error ps 0
    | onePath p => Some p
    | dismissed => None
    end.

(** The state update of [removeFile]. *)
Definition removeFile (current : list FileItem) (p : string) : list FileItem :=
  List.filter (fun file => negb (String.eqb (path file) p)) current.

(** The state update of [clearFiles]. *)
Definition clearFiles (current : list FileItem) : list FileItem := [].

End FileSelection.

(* ================================================================== *)
(** * src/hooks/useWatermarkStore.ts                                    *)
(* ================================================================== *)

Module WatermarkStore.
Import Types.

(** [Partial<WatermarkConfig>]: every key may be absent. *)
Record PartialConfig := {
  p_watermarkType : option WatermarkType;
  p_text : option string;
  p_imagePath : option (option string);
  p_position : option WatermarkPosition;
  p_opacity : option Z;
  p_textColor : option string;
  p_fontSize : option Z;
  p_fontFamily : option string;
  p_imageScale : option Z;
  p_positionMode : option PositionMode;
  p_customPosition : option Point
}.

Definition emptyPartial : PartialConfig := {|
  p_watermarkType := None; p_text := None; p_imagePath := None;
  p_position := None; p_opacity := None; p_textColor := None;
  p_fontSize := None; p_fontFamily := None; p_imageScale := None;
  p_positionMode := None; p_customPosition := None
|}.

(** One key of [{ ...previous, ...partial }]. *)
Definition over {A} (previous : A) (partial : option A) : A :=
  match partial with
  | Some v => v
  | None => previous
  end.

(** One optional key of the spread. *)
Definition overOpt {A} (previous partial : option A) : option A :=
  match partial with
  | Some v => Some v
  | None => previous
  end.

(** [{ ...previous, ...partial }] *)
Definition spread (previous : WatermarkConfig) (partial : PartialConfig)
  : WatermarkConfig := {|
  watermarkType := over (watermarkType previous) (p_watermarkType partial);
  text := over (text previous) (p_text partial);
  imagePath := over (imagePath previous) (p_imagePath partial);
  position := over (position previous) (p_position partial);
  opacity := over (opacity previous) (p_opacity partial);
  textColor := over (textColor previous) (p_textColor partial);
  fontSize := over (fontSize previous) (p_fontSize partial);
  fontFamily := over (fontFamily previous) (p_fontFamily partial);
  imageScale := overOpt (imageScale previous) (p_imageScale partial);
  positionMode := overOpt (positionMode previous) (p_positionMode partial);
  customPosition := overOpt (customPosition previous) (p_customPosition partial)
|}.

(** [updated.customPosition = pos] *)
Definition withCustomPosition (c : WatermarkConfig) (pos : Point)
  : WatermarkConfig := {|
  watermarkType := watermarkType c; text := text c;
  imagePath := imagePath c; position := position c;
  opacity := opacity c; textColor := textColor c;
  fontSize := fontSize c; fontFamily := fontFamily c;
  imageScale := imageScale c; positionMode := positionMode c;
  customPosition := Some pos
|}.

Definition isSome {A} (o : option A) : bool :=
  match o with Some _ => true | None => false end.

(** [Object.keys(partial).some(key => key !== 'positionMode' &&
    key !== 'customPosition')] *)
Definition isSubstantialChange (partial : PartialConfig) : bool :=
  isSome (p_watermarkType partial) || isSome (p_text partial)
  || isSome (p_imagePath partial) || isSome (p_position partial)
  || isSome (p_opacity partial) || isSome (p_textColor partial)
  || isSome (p_fontSize partial) || isSome (p_fontFamily partial)
  || isSome (p_imageScale partial).

Definition ltb (a b : Q) : bool := negb (Qle_bool b a).

(** [x < 0 || x > 1 || y < 0 || y > 1] *)
Definition outOfRange (pos : Point) : bool :=
  ltb (px pos) 0 || ltb 1 (px pos) || ltb (py pos) 0 || ltb 1 (py pos).

(** [{ x: Math.max(0, Math.min(1, x)), y: Math.max(0, Math.min(1, y)) }] *)
Definition clamped (pos : Point) : Point := {|
  px := JS.Math_max 0 (JS.Math_min 1 (px pos));
  py := JS.Math_max 0 (JS.Math_min 1 (py pos))
|}.

(** The hook's state ([config], [activePresetId]) and the two keys of the
    persistent store it writes. *)
Record Store := {
  config : WatermarkConfig;
  activePresetId : option string;
  stored_watermarkConfig : option WatermarkConfig;   (* STORE_KEY *)
  stored_activePresetId : option string
}.

Definition updateConfig (st : Store) (partial : PartialConfig) : Store :=
  let previous := config st in
  let updated := spread previous partial in
  let updated :=
    match p_customPosition partial, positionMode updated with
    | Some pos, Some custom =>
        if outOfRange pos then withCustomPosition updated (clamped pos)
        else updated
    | _, _ => updated
    end in
  let clearPreset := isSubstantialChange partial && JS.truthy (activePresetId st) in
  {| config := updated;
     activePresetId := if clearPreset then None else activePresetId st;
     stored_watermarkConfig := Some updated;
     stored_activePresetId :=
       if clearPreset then None else stored_activePresetId st |}.

Definition inUnitSquare (pos : Point) : Prop :=
  (0 <= px pos /\ px pos <= 1 /\ 0 <= py pos /\ py pos <= 1)%Q.

(** The clamping rule as the specification words it: whenever an update
    supplies a custom position, what is stored is its componentwise clamp
    to the unit square. *)
Definition spec_clamped (st : Store) (partial : PartialConfig) : Prop :=
  forall pos, p_customPosition partial = Some pos ->
    customPosition (config (updateConfig st partial)) = Some (clamped pos).

(** The keys of a full configuration object, as a spread sees them: the
    required keys always, the optional ones when they are set. *)
Definition asPartial (c : WatermarkConfig) : PartialConfig := {|
  p_watermarkType := Some (watermarkType c);
  p_text := Some (text c);
  p_imagePath := Some (imagePath c);
  p_position := Some (position c);
  p_opacity := Some (opacity c);
  p_textColor := Some (textColor c);
  p_fontSize := Some (fontSize c);
  p_fontFamily := Some (fontFamily c);
  p_imageScale := imageScale c;
  p_positionMode := positionMode c;
  p_customPosition := customPosition c
|}.

(** [{ ...config, positionMode: mode }] *)
Definition withPositionMode (config : PartialConfig) (mode : PositionMode)
  : PartialConfig := {|
  p_watermarkType := p_watermarkType config;
  p_text := p_text config;
  p_imagePath := p_imagePath config;
  p_position := p_position config;
  p_opacity := p_opacity config;
  p_textColor := p_textColor config;
  p_fontSize := p_fontSize config;
  p_fontFamily := p_fontFamily config;
  p_imageScale := p_imageScale config;
  p_positionMode := Some mode;
  p_customPosition := p_customPosition config
|}.

Definition migrateConfig (config : PartialConfig) : PartialConfig :=
  match p_positionMode config with
  | None => withPositionMode config preset
  | Some _ => config
  end.

(** [{ ...DEFAULT_WATERMARK_CONFIG, ...source, positionMode: 'preset' }] *)
Definition defaultsWithPreset (source : PartialConfig) : WatermarkConfig :=
  spread (spread DEFAULT_WATERMARK_CONFIG source)
         (withPositionMode emptyPartial preset).

Definition applyPreset (st : Store) (presetId : string)
    (presetConfig : WatermarkConfig) : Store :=
  let mergedConfig := defaultsWithPreset (asPartial presetConfig) in
  {| config := mergedConfig;
     activePresetId := Some presetId;
     stored_watermarkConfig := Some mergedConfig;
     stored_activePresetId := Some presetId |}.

(** The hook with its [isLoading] flag. *)
Record Loading := {
  store : Store;
  isLoading : bool
}.

(** The hook on its first render, over what the persistent store holds. *)
Definition firstRender (savedConfig : option WatermarkConfig)
    (savedPresetId : option string) : Loading :=
  {| store := {| config := DEFAULT_WATERMARK_CONFIG;
                 activePresetId := None;
                 stored_watermarkConfig := savedConfig;
                 stored_activePresetId := savedPresetId |};
     isLoading := true |}.

(** What [loadConfig] meets on its way: whether the reads of the store
    reject, what [loadDefaultPreset] returns ([null] when the bundled
    preset cannot be read), whether each of the two writes rejects, and the
    value of [isMounted] after the reads and in the [finally] block. *)
Record LoadEnv := {
  readsReject : bool;
  defaultPreset : option PartialConfig;
  writeConfigRejects : bool;
  writePresetIdRejects : bool;
  mountedAfterReads : bool;
  mountedAtEnd : bool
}.

Definition setConfig (st : Store) (c : WatermarkConfig) : Store :=
  {| config := c; activePresetId := activePresetId st;
     stored_watermarkConfig := stored_watermarkConfig st;
     stored_activePresetId := stored_activePresetId st |}.

Definition setActivePresetId (st : Store) (id : option string) : Store :=
  {| config := config st; activePresetId := id;
     stored_watermarkConfig := stored_watermarkConfig st;
     stored_activePresetId := stored_activePresetId st |}.

Definition storeSetConfig (st : Store) (c : WatermarkConfig) : Store :=
  {| config := config st; activePresetId := activePresetId st;
     stored_watermarkConfig := Some c;
     stored_activePresetId := stored_activePresetId st |}.

Definition storeSetPresetId (st : Store) (id : string) : Store :=
  {| config := config st; activePresetId := activePresetId st;
     stored_watermarkConfig := stored_watermarkConfig st;
     stored_activePresetId := Some id |}.

(** The [try] block of [loadConfig]: the store it leaves, whether it ran to
    its end or was cut short by a rejection. *)
Definition loadConfig_try (st : Store) (env : LoadEnv) : Store :=
  if readsReject env then st
  else
    let saved := option_map asPartial (stored_watermarkConfig st) in
    let migrated := option_map migrateConfig saved in
    let savedPresetId := stored_activePresetId st in
    let st :=
      if JS.truthy savedPresetId && mountedAfterReads env
      then setActivePresetId st savedPresetId else st in
    match migrated, mountedAfterReads env with
    | Some m, true => setConfig st (spread DEFAULT_WATERMARK_CONFIG m)
    | _, false => st
    | None, true =>
        match defaultPreset env with
        | Some dp =>
            let presetWithPositionMode := defaultsWithPreset dp in
            let st := setConfig st presetWithPositionMode in
            if writeConfigRejects env then st
            else
              let st := storeSetConfig st presetWithPositionMode in
              let st := setActivePresetId st (Some "default") in
              if writePresetIdRejects env then st
              else storeSetPresetId st "default"
        | None => setConfig st DEFAULT_WATERMARK_CONFIG
        end
    end.

(** [loadConfig], with its [finally] block. *)
Definition loadConfig (l : Loading) (env : LoadEnv) : Loading :=
  {| store := loadConfig_try (store l) env;
     isLoading := if mountedAtEnd env then false else isLoading l |}.

(** One call on the hook after loading. *)
Inductive StoreOp :=
| UpdateConfig (partial : PartialConfig)
| ApplyPreset (presetId : string) (presetConfig : WatermarkConfig).

Definition applyOp (st : Store) (op : StoreOp) : Store :=
  match op with
  | UpdateConfig partial => updateConfig st partial
  | ApplyPreset presetId presetConfig => applyPreset st presetId presetConfig
  end.

Definition applyOps (st : Store) (ops : list StoreOp) : Store :=
  List.fold_left applyOp ops st.

(** A restart: the next session's first render over the store this session
    leaves, loaded with every read succeeding and the hook mounted. *)
Definition quietEnv : LoadEnv := {|
  readsReject := false; defaultPreset := None;
  writeConfigRejects := false; writePresetIdRejects := false;
  mountedAfterReads := true; mountedAtEnd := true
|}.

Definition restart (st : Store) : Loading :=
  loadConfig (firstRender (stored_watermarkConfig st) (stored_activePresetId st))
             quietEnv.

(** The state and the persistent store agree, and the two optional keys
    that the defaults fill in are set. *)
Definition inSync (st : Store) : Prop :=
  stored_activePresetId st = activePresetId st /\
  imageScale (config st) <> None /\
  positionMode (config st) <> None.

End WatermarkStore.

(* ================================================================== *)
(** * src/utils/canvas.ts                                               *)
(* ================================================================== *)

Module Canvas.
Import Types.
Local Open Scope Q_scope.

Definition PADDING : Q := 20.

Definition calculatePosition (position : WatermarkPosition)
    (canvasWidth canvasHeight watermarkWidth watermarkHeight : Q) : Point :=
  match position with
  | top_left =>
      {| px := PADDING; py := PADDING |}
  | top_center =>
      {| px := (canvasWidth - watermarkWidth) / 2; py := PADDING |}
  | top_right =>
      {| px := canvasWidth - watermarkWidth - PADDING; py := PADDING |}
  | center_left =>
      {| px := PADDING; py := (canvasHeight - watermarkHeight) / 2 |}
  | center =>
      {| px := (canvasWidth - watermarkWidth) / 2;
         py := (canvasHeight - watermarkHeight) / 2 |}
  | center_right =>
      {| px := canvasWidth - watermarkWidth - PADDING;
         py := (canvasHeight - watermarkHeight) / 2 |}
  | bottom_left =>
      {| px := PADDING; py := canvasHeight - watermarkHeight - PADDING |}
  | bottom_center =>
      {| px := (canvasWidth - watermarkWidth) / 2;
         py := canvasHeight - watermarkHeight - PADDING |}
  | bottom_right =>
      {| px := canvasWidth - watermarkWidth - PADDING;
         py := canvasHeight - watermarkHeight - PADDING |}
  end.

End Canvas.

(* ================================================================== *)
(** * The preview canvas (PreviewCanvas): where the watermark is drawn  *)
(* ================================================================== *)

Module PreviewCanvas.
Import Types.
Local Open Scope Q_scope.

(** Coordinates are rationals, so sums, products and quotients are exact
    here where the code rounds to binary64.  What is proved about this
    module is limited to what does not depend on that: order and clamping
    facts, and equations between the code's own expressions. *)

(** Width and height, of the source image or of the watermark. *)
Record Dimensions := { width : Q; height : Q }.

(** [wmWidth] and [wmHeight] of [watermarkPosition]: the text's measures
    for a text watermark, the scaled image's for an image watermark, zero
    while they are not known. *)
Definition watermarkSize (config : WatermarkConfig)
    (textDimensions watermarkImageDimensions : option Dimensions) : Dimensions :=
  match watermarkType config, textDimensions, watermarkImageDimensions with
  | text_type, Some d, _ => d
  | image_type, _, Some d => d
  | _, _, _ => {| width := 0; height := 0 |}
  end.

(** The memoised [watermarkPosition]; [sourceImage] carries the image's
    [naturalWidth] and [naturalHeight] once it is loaded. *)
Definition watermarkPosition (sourceImage : option Dimensions)
    (config : WatermarkConfig)
    (textDimensions watermarkImageDimensions : option Dimensions) : Point :=
  match sourceImage with
  | None => {| px := 0; py := 0 |}
  | Some source =>
      let wm := watermarkSize config textDimensions watermarkImageDimensions in
      match positionMode config, customPosition config with
      | Some custom, Some at_ =>
          {| px := width source * px at_ - width wm / 2;
             py := height source * py at_ - height wm / 2 |}
      | _, _ =>
          Canvas.calculatePosition (position config)
            (width source) (height source) (width wm) (height wm)
      end
  end.

(** The memoised [watermarkImageDimensions]: the watermark image scaled to
    [imageScale] percent (20 when unset or zero) of the source's width,
    keeping its aspect ratio. *)
Definition watermarkImageDimensions (config : WatermarkConfig)
    (watermarkImage sourceImage : option Dimensions) : option Dimensions :=
  match watermarkType config, watermarkImage, sourceImage with
  | image_type, Some wm, Some source =>
      let scalePercentage :=
        match imageScale config with
        | Some 0%Z | None => 20
        | Some n => inject_Z n
        end in
      let targetWidth := (width source * scalePercentage) / 100 in
      let aspectRatio := height wm / width wm in
      Some {| width := targetWidth; height := targetWidth * aspectRatio |}
  | _, _, _ => None
  end.





(** [handleTextDragEnd] and [handleImageDragEnd]: the update sent to
    [onConfigUpdate] when the node is dropped at ([x], [y]), if any. *)
Definition handleDragEnd (sourceImage dimensions : option Dimensions)
    (x y : Q) : option WatermarkStore.PartialConfig :=
  match sourceImage, dimensions with
  | Some source, Some d =>
      let centerX := x + width d / 2 in
      let centerY := y + height d / 2 in
      let normalizedX := centerX / width source in
      let normalizedY := centerY / height source in
      let clampedX := JS.Math_max 0 (JS.Math_min 1 normalizedX) in
      let clampedY := JS.Math_max 0 (JS.Math_min 1 normalizedY) in
      Some (WatermarkStore.Build_PartialConfig
              None None None None None None None None None
              (Some custom) (Some {| px := clampedX; py := clampedY |}))
  | _, _ => None
  end.

End PreviewCanvas.

(* ================================================================== *)
(** * src/hooks/useWatermarkProcessor.ts                                *)
(* ================================================================== *)

Module Processor.
Import Types.

Module VALIDATION_MESSAGES.
Definition noFiles := "Add files before processing.".
Definition noOutput := "Please select an output directory.".
Definition emptyText := "Watermark text cannot be empty.".
Definition missingImage := "Select a watermark image before processing.".
End VALIDATION_MESSAGES.

(** ** The hook's cells and the world it talks to *)

Inductive EventName := watermark_progress | watermark_complete.

(** The [UnlistenFn] handed out for a registration de-registers the
    listener of that event. *)
Definition UnlistenFn := EventName.

Record InvokeArgs := {
  arg_files : list FileItem;
  arg_config : WatermarkConfig;
  arg_outputDir : string
}.

(** What a rejected [invoke] throws: an [Error] with its message, or any
    other value with its [String(err)]. *)
Inductive Thrown :=
| ErrorObject (message : string)
| OtherValue (asString : string).

Inductive Settled := fulfilled | rejected (err : Thrown).

Record Hook := {
  (* useState *)
  processingState : ProcessingState;
  progress : JS.Map ProgressPayload;
  result : option BatchResult;
  error : option string;
  (* useRef *)
  unlistenProgressRef : option UnlistenFn;
  unlistenCompleteRef : option UnlistenFn;
  isCancelledRef : bool;
  (* the effect's closure *)
  isMounted : bool;
  pendingListen : option EventName;   (* the [await listen(...)] in flight *)
  (* the event channel and the Orchestrator *)
  listeners : list EventName;         (* registrations that are live *)
  unlistenCalls : list UnlistenFn;    (* every call of an UnlistenFn *)
  invokeCalls : list InvokeArgs       (* every [invoke('process_batch')] *)
}.

(** ** Effects

    A handler is a list of the effects it performs, in program order. *)

Inductive Action :=
| setProcessingState (s : ProcessingState)
| setProgress (update : JS.Map ProgressPayload -> JS.Map ProgressPayload)
| setResult (r : option BatchResult)
| setError (e : option string)
| setUnlistenProgressRef (u : option UnlistenFn)
| setUnlistenCompleteRef (u : option UnlistenFn)
| setIsCancelledRef (b : bool)
| setIsMounted (b : bool)
| callListen (ev : EventName)
| callUnlisten (u : UnlistenFn)
| invoke (args : InvokeArgs)
| console (line : string).

Definition eventEqb (a b : EventName) : bool :=
  match a, b with
  | watermark_progress, watermark_progress => true
  | watermark_complete, watermark_complete => true
  | _, _ => false
  end.

Definition perform (h : Hook) (a : Action) : Hook :=
  let
    '(Build_Hook st pr re er up uc ic im pl ls ul iv) := h in
  match a with
  | setProcessingState s => Build_Hook s pr re er up uc ic im pl ls ul iv
  | setProgress f => Build_Hook st (f pr) re er up uc ic im pl ls ul iv
  | setResult r => Build_Hook st pr r er up uc ic im pl ls ul iv
  | setError e => Build_Hook st pr re e up uc ic im pl ls ul iv
  | setUnlistenProgressRef u => Build_Hook st pr re er u uc ic im pl ls ul iv
  | setUnlistenCompleteRef u => Build_Hook st pr re er up u ic im pl ls ul iv
  | setIsCancelledRef b => Build_Hook st pr re er up uc b im pl ls ul iv
  | setIsMounted b => Build_Hook st pr re er up uc ic b pl ls ul iv
  | callListen ev => Build_Hook st pr re er up uc ic im (Some ev) ls ul iv
  | callUnlisten u =>
      Build_Hook st pr re er up uc ic im pl
        (List.filter (fun ev => negb (eventEqb ev u)) ls) (ul ++ [u]) iv
  | invoke args => Build_Hook st pr re er up uc ic im pl ls ul (iv ++ [args])
  | console _ => h
  end.

Definition run (h : Hook) (actions : list Action) : Hook :=
  List.fold_left perform actions h.

(** ** The handlers *)

(** The listener of ['watermark-progress']. *)
Definition onProgress (h : Hook) (payload : ProgressPayload) : list Action :=
  if negb (isMounted h) || isCancelledRef h then []
  else
    setProgress (fun prev => JS.set prev (filePath payload) payload)
    :: match pstatus payload with
       | st_error => [console "Watermark processing error"]
       | _ => []
       end.

(** The listener of ['watermark-complete']. *)
Definition onComplete (h : Hook) (payload : BatchResult) : list Action :=
  if negb (isMounted h) then []
  else if isCancelledRef h then
    [setResult (Some payload); setProcessingState cancelled]
  else
    [setResult (Some payload); setProcessingState complete].

(** [registerListeners] from its start to its first [await]. *)
Definition registerListeners : list Action :=
  [callListen watermark_progress].

(** [registerListeners] resumed after the [await listen(ev)] it was
    suspended at: with the [UnlistenFn] when the promise fulfilled, in
    the [catch] block when it rejected. *)
Definition registerListeners_resume (ev : EventName) (ok : bool)
  : list Action :=
  if ok then
    match ev with
    | watermark_progress =>
        [setUnlistenProgressRef (Some watermark_progress);
         callListen watermark_complete]
    | watermark_complete =>
        [setUnlistenCompleteRef (Some watermark_complete)]
    end
  else [console "Failed to register watermark event listeners"].

(** The effect's cleanup function. *)
Definition cleanup (h : Hook) : list Action :=
  [setIsMounted false]
  ++ match unlistenProgressRef h with
     | Some u => [callUnlisten u; setUnlistenProgressRef None]
     | None => []
     end
  ++ match unlistenCompleteRef h with
     | Some u => [callUnlisten u; setUnlistenCompleteRef None]
     | None => []
     end
  ++ [setProgress (fun _ => []); setResult None].

Definition validateInputs (files : list FileItem) (config : WatermarkConfig)
    (outputDir : string) : option string :=
  match files with
  | [] => Some VALIDATION_MESSAGES.noFiles
  | _ :: _ =>
      if JS.falsy outputDir then Some VALIDATION_MESSAGES.noOutput
      else
        match watermarkType config with
        | text_type =>
            if JS.falsy (JS.trim (text config))
            then Some VALIDATION_MESSAGES.emptyText
            else None
        | image_type =>
            if negb (JS.truthy (imagePath config))
            then Some VALIDATION_MESSAGES.missingImage
            else None
        end
  end.

(** [processBatch] from its start to the [await invoke(...)], or to its
    early [return]. *)
Definition processBatch (files : list FileItem) (config : WatermarkConfig)
    (outputDir : string) : list Action :=
  let validationError := validateInputs files config outputDir in
  if JS.truthy validationError then
    [setError validationError;
     setProcessingState Types.error;
     console "Watermark processing validation failed"]
  else
    [setProcessingState processing;
     setError None;
     setResult None;
     setProgress (fun _ => []);
     setIsCancelledRef false;
     invoke {| arg_files := files; arg_config := config;
               arg_outputDir := outputDir |}].

(** [err instanceof Error ? err.message : String(err)] *)
Definition messageOf (err : Thrown) : string :=
  match err with
  | ErrorObject message => message
  | OtherValue asString => asString
  end.

(** [processBatch] resumed after the [await invoke(...)]. *)
Definition processBatch_resume (outcome : Settled) : list Action :=
  match outcome with
  | fulfilled => [console "Watermark batch processing started"]
  | rejected err =>
      [console "Watermark batch processing failed";
       setError (Some (messageOf err));
       setProcessingState Types.error]
  end.

(** [cancelProcessing], closed over the rendered [processingState]. *)
Definition cancelProcessing (rendered : ProcessingState) : list Action :=
  match rendered with
  | processing =>
      [setIsCancelledRef true; setProcessingState cancelled;
       console "Watermark batch processing cancelled (UI only)"]
  | _ => []
  end.

(** [progressArray] *)
Definition progressArray (h : Hook) : list ProgressPayload :=
  JS.sort fileIndex (JS.values (progress h)).

Definition isProcessing (h : Hook) : bool :=
  match processingState h with processing => true | _ => false end.

(** ** The hook as a machine *)

(** What can happen to a mounted hook, one step at a time.  Every handler
    runs to its next [await] without interleaving, and the component has
    re-rendered before the next handler starts. *)
Inductive Step :=
| ListenSettled (ok : bool)
| EmitProgress (payload : ProgressPayload)
| EmitComplete (payload : BatchResult)
| CallProcessBatch (files : list FileItem) (config : WatermarkConfig)
                   (outputDir : string)
| InvokeSettled (outcome : Settled)
| CallCancelProcessing
| Unmount.

Definition isListening (h : Hook) (ev : EventName) : bool :=
  List.existsb (eventEqb ev) (listeners h).

(** The pending [listen] promise settles: when it fulfils, the channel has
    registered the listener and hands out its [UnlistenFn]; when it
    rejects, nothing was registered. *)
Definition settleListen (h : Hook) (registered : option EventName) : Hook :=
  let
    '(Build_Hook st pr re er up uc ic im pl ls ul iv) := h in
  Build_Hook st pr re er up uc ic im None
    (match registered with Some ev => ls ++ [ev] | None => ls end) ul iv.

Definition step (h : Hook) (s : Step) : Hook :=
  match s with
  | ListenSettled ok =>
      match pendingListen h with
      | Some ev =>
          run (settleListen h (if ok then Some ev else None))
              (registerListeners_resume ev ok)
      | None => h
      end
  | EmitProgress payload =>
      if isListening h watermark_progress
      then run h (onProgress h payload) else h
  | EmitComplete payload =>
      if isListening h watermark_complete
      then run h (onComplete h payload) else h
  | CallProcessBatch files config outputDir =>
      run h (processBatch files config outputDir)
  | InvokeSettled outcome => run h (processBatch_resume outcome)
  | CallCancelProcessing => run h (cancelProcessing (processingState h))
  | Unmount => run h (cleanup h)
  end.

Definition steps (h : Hook) (trace : list Step) : Hook :=
  List.fold_left step trace h.

(** The hook after its first render and the start of its effect. *)
Definition mount : Hook :=
  run {| processingState := idle; progress := []; result := None;
         error := None;
         unlistenProgressRef := None; unlistenCompleteRef := None;
         isCancelledRef := false;
         isMounted := true; pendingListen := None;
         listeners := []; unlistenCalls := []; invokeCalls := [] |}
      registerListeners.

End Processor.


(* ================================================================== *)
(** * src/components/ProcessingPanel.tsx                                *)
(* ================================================================== *)

Module ProcessingPanel.
Import Types.

Record Panel := {
  outputDir : string;
  errorMessage : option string
}.

(** The state update of [selectOutputDir] for what the directory dialog
    resolved to; a rejected dialog is [None]. *)
Definition selectOutputDir (panel : Panel)
    (selection : option FileSelection.DialogResult) : Panel :=
  match selection with
  | None =>
      {| outputDir := outputDir panel;
         errorMessage :=
           Some "Unable to select output directory. Please try again." |}
  | Some result =>
      if FileSelection.noResult result then panel
      else
        let selectedPath :=
          match result with
          | FileSelection.manyPaths ps => List.nth 0 ps ""
          | FileSelection.onePath p => p
          | FileSelection.dismissed => ""
          end in
        {| outputDir := selectedPath; errorMessage := None |}
  end.

(** [handleProcess]: the panel it leaves and the directory it hands to
    [onProcess], if it does. *)
Definition handleProcess (files : list FileItem) (panel : Panel)
  : Panel * option string :=
  match files with
  | [] =>
      ({| outputDir := outputDir panel;
          errorMessage := Some "Add files before processing." |}, None)
  | _ :: _ =>
      if JS.falsy (outputDir panel) then
        ({| outputDir := outputDir panel;
            errorMessage := Some "Please select an output directory." |}, None)
      else
        ({| outputDir := outputDir panel; errorMessage := None |},
         Some (outputDir panel))
  end.

Definition isWatermarkValid (config : WatermarkConfig) : bool :=
  match watermarkType config with
  | text_type => negb (String.eqb (JS.trim (text config)) "")
  | image_type => JS.truthy (imagePath config)
  end.

Definition validationsComplete (files : list FileItem) (panel : Panel)
    (config : WatermarkConfig) : bool :=
  (0 <? List.length files) && negb (JS.falsy (outputDir panel))
  && isWatermarkValid config.

Definition readinessPercentage (files : list FileItem) (panel : Panel)
    (config : WatermarkConfig) : Z :=
  ((if (0 <? List.length files)%nat then 33 else 0)
   + (if JS.falsy (outputDir panel) then 0 else 33)
   + (if isWatermarkValid config then 34 else 0))%Z.

(** The Process button is disabled. *)
Definition processDisabled (files : list FileItem) (panel : Panel)
    (config : WatermarkConfig) (processingState : ProcessingState) : bool :=
  negb (validationsComplete files panel config)
  || match processingState with processing => true | _ => false end.

End ProcessingPanel.

(* ================================================================== *)
(** * The progress display (ProgressDisplay)                            *)
(* ================================================================== *)

Module ProgressDisplay.
Import Types.



Definition totalFiles (progressArray : list ProgressPayload) : Z :=
  List.fold_left (fun acc payload => Z.max acc (Types.totalFiles payload))
                 progressArray 0%Z.




(** The order of the table's rows:
    [progressArray.slice().sort((a, b) => a.fileIndex - b.fileIndex)]. *)
Definition rows (progressArray : list ProgressPayload) : list ProgressPayload :=
  JS.sort fileIndex progressArray.

End ProgressDisplay.

(* ================================================================== *)
(** * The results summary (ResultsSummary)                              *)
(* ================================================================== *)

Module ResultsSummary.
Import Types.

Definition getFilename (path : string) : string :=
  let segments := JS.split FileSelection.isSlash path in
  JS.orElse (JS.lastOr segments "") path.

(** [segments.pop()], for what it leaves. *)
Definition pop {A} (xs : list A) : list A := List.removelast xs.

Definition getDirectoryPath (filePath : string) : string :=
  let segments := pop (JS.split FileSelection.isSlash filePath) in
  JS.orElse (JS.join "\" segments) (JS.join "/" segments).

Definition isSuccess (f : FileResult) : bool :=
  match status f with success => true | _ => false end.

(** [handleOpenFolder]: the folder it asks the backend to open, if any. *)
Definition handleOpenFolder (result : option BatchResult) : option string :=
  match result with
  | None => None
  | Some r =>
      match List.find (fun f => isSuccess f && JS.truthy (outputPath f))
                      (files r) with
      | Some firstSuccessfulFile =>
          match outputPath firstSuccessfulFile with
          | Some out =>
              if JS.falsy out then None else Some (getDirectoryPath out)
          | None => None
          end
      | None => None
      end
  end.

End ResultsSummary.

(* ================================================================== *)
(** * The watermark controls (WatermarkControls, in FileList.tsx)       *)
(* ================================================================== *)

Module WatermarkControls.
Import Types WatermarkStore.

(** What the Position select hands to [handlePositionChange]. *)
Inductive PositionChoice :=
| noChoice
| chooseCustom
| choosePreset (p : WatermarkPosition).

(** [handlePositionChange]: the update it sends, if any. *)
Definition handlePositionChange (value : PositionChoice)
  : option PartialConfig :=
  match value with
  | noChoice => None
  | chooseCustom => Some (withPositionMode emptyPartial custom)
  | choosePreset p =>
      Some {| p_watermarkType := None; p_text := None; p_imagePath := None;
              p_position := Some p; p_opacity := None; p_textColor := None;
              p_fontSize := None; p_fontFamily := None; p_imageScale := None;
              p_positionMode := Some preset; p_customPosition := None |}
  end.

Definition handleResetToPreset (config : WatermarkConfig) : PartialConfig :=
  {| p_watermarkType := None; p_text := None; p_imagePath := None;
     p_position := Some (position config); p_opacity := None;
     p_textColor := None; p_fontSize := None; p_fontFamily := None;
     p_imageScale := None; p_positionMode := Some preset;
     p_customPosition := None |}.



(** [onUpdate] on what a handler sends, if it sends anything. *)
Definition send (st : Store) (update : option PartialConfig) : Store :=
  match update with
  | Some partial => updateConfig st partial
  | None => st
  end.

End WatermarkControls.

(* ================================================================== *)
(** * src/pages/Home.tsx                                                *)
(* ================================================================== *)

Module Home.
Import Types.

(** The effect on [selectedFiles] that keeps [currentPreviewFile]. *)
Definition syncPreviewFile (selectedFiles : list FileItem)
    (previous : option FileItem) : option FileItem :=
  match selectedFiles with
  | [] => None
  | first :: _ =>
      match previous with
      | None => Some first
      | Some prev =>
          let stillExists :=
            List.existsb (fun file => String.eqb (path file) (path prev))
                         selectedFiles in
          if stillExists then Some prev else Some first
      end
  end.

(** [handleProcess]: the panel's directory goes to [processBatch] with the
    selected files and the current configuration. *)
Definition handleProcess (selectedFiles : list FileItem)
    (config : WatermarkConfig) (outputDir : string) : Processor.Step :=
  Processor.CallProcessBatch selectedFiles config outputDir.

(** [shouldShowProgress] *)
Definition shouldShowProgress (h : Processor.Hook) : bool :=
  Processor.isProcessing h
  || (0 <? List.length (Processor.progressArray h)).

End Home.

(* ================================================================== *)
(** * Scenarios                                                         *)
(* ================================================================== *)

Module Scenarios.
Import Types WatermarkStore.

(** A store in preset mode, as on first launch. *)
Definition presetStore : Store := {|
  config := DEFAULT_WATERMARK_CONFIG;
  activePresetId := Some "default";
  stored_watermarkConfig := None;
  stored_activePresetId := Some "default"
|}.

(** A store in custom mode. *)
Definition customStore : Store :=
  updateConfig presetStore
    {| p_watermarkType := None; p_text := None; p_imagePath := None;
       p_position := None; p_opacity := None; p_textColor := None;
       p_fontSize := None; p_fontFamily := None; p_imageScale := None;
       p_positionMode := Some custom;
       p_customPosition := Some {| px := 1 # 2; py := 1 # 2 |} |}.

(** The update of Scenario F: only a custom position, out of range. *)
Definition scenarioF : PartialConfig := {|
  p_watermarkType := None; p_text := None; p_imagePath := None;
  p_position := None; p_opacity := None; p_textColor := None;
  p_fontSize := None; p_fontFamily := None; p_imageScale := None;
  p_positionMode := None;
  p_customPosition := Some {| px := 3 # 2; py := - 1 # 5 |}
|}.

(** The inputs of the hook's test suite. *)
Definition sampleFiles : list FileItem :=
  [ {| path := "/input/a.jpg"; name := "a.jpg"; type := image; size := None |};
    {| path := "/input/b.jpg"; name := "b.jpg"; type := image; size := None |} ].

Definition sampleConfig : WatermarkConfig := {|
  watermarkType := text_type;
  text := "Demo";
  imagePath := None;
  position := bottom_right;
  opacity := 80%Z;
  textColor := "#ffffff";
  fontSize := 32%Z;
  fontFamily := "Arial";
  imageScale := None;
  positionMode := None;
  customPosition := None
|}.

(** Scenario D: an image watermark without an image. *)
Definition imageConfig : WatermarkConfig := {|
  watermarkType := image_type;
  text := "Demo";
  imagePath := None;
  position := bottom_right;
  opacity := 80%Z;
  textColor := "#ffffff";
  fontSize := 32%Z;
  fontFamily := "Arial";
  imageScale := None;
  positionMode := None;
  customPosition := None
|}.

End Scenarios.

(* ================================================================== *)
(** * Vocabulary of the specification                                   *)
(* ================================================================== *)

Module Observation.
Import Types Processor.

(** A progress event is observed by the controller when its progress
    listener is registered, the hook is mounted and the run has not been
    cancelled. *)
Definition observes (h : Hook) : bool :=
  isListening h watermark_progress && isMounted h && negb (isCancelledRef h).

(** The payloads observed in the current run, oldest first: a batch that
    passes validation starts a new run, and so does disposal. *)
Definition observedAfter (h : Hook) (s : Step) (seen : list ProgressPayload)
  : list ProgressPayload :=
  match s with
  | EmitProgress payload => if observes h then seen ++ [payload] else seen
  | CallProcessBatch files config outputDir =>
      match validateInputs files config outputDir with
      | Some _ => seen
      | None => []
      end
  | Unmount => []
  | _ => seen
  end.

Fixpoint observed (h : Hook) (trace : list Step) (seen : list ProgressPayload)
  : list ProgressPayload :=
  match trace with
  | [] => seen
  | s :: rest => observed (step h s) rest (observedAfter h s seen)
  end.

(** The last payload for [path] among [seen]. *)
Definition lastFor (path : string) (seen : list ProgressPayload)
  : option ProgressPayload :=
  List.find (fun p => String.eqb (filePath p) path) (List.rev seen).

(** The payloads stored for [path]. *)
Definition storedFor (path : string) (h : Hook) : list ProgressPayload :=
  List.filter (fun p => String.eqb (filePath p) path) (JS.values (progress h)).

Definition indexLe (a b : ProgressPayload) : Prop :=
  (fileIndex a <= fileIndex b)%Z.

(** The steps that belong to one run: neither a new batch nor disposal. *)
Definition withinRun (s : Step) : bool :=
  match s with
  | CallProcessBatch _ _ _ => false
  | Unmount => false
  | _ => true
  end.

Definition notUnmount (s : Step) : bool :=
  match s with
  | Unmount => false
  | _ => true
  end.

(** The arguments [processBatch] passes to the Orchestrator. *)
Definition argsOf (files : list FileItem) (config : WatermarkConfig)
    (outputDir : string) : InvokeArgs :=
  {| arg_files := files; arg_config := config; arg_outputDir := outputDir |}.

Definition isInvoke (a : Action) : bool :=
  match a with
  | invoke _ => true
  | _ => false
  end.

(** The hook once both of its listeners are registered. *)
Definition registered : Hook :=
  steps mount [ListenSettled true; ListenSettled true].

(** A cancelled run: the flag is set, the progress map is [frozenMap], and
    the state is cancelled, or error after a rejected [invoke]. *)
Definition cancelledRun (frozenMap : JS.Map ProgressPayload) (mounted : bool)
    (h : Hook) : Prop :=
  isCancelledRef h = true /\
  progress h = frozenMap /\
  isMounted h = mounted /\
  (processingState h = cancelled \/ processingState h = Types.error).

(** The progress map holds, under distinct keys that are the payloads'
    paths, the last payload of [seen] for every path. *)
Definition storeHolds (seen : list ProgressPayload) (h : Hook) : Prop :=
  NoDup (JS.keys (progress h)) /\
  Forall (fun e => fst e = filePath (snd e)) (progress h) /\
  forall path, JS.get (progress h) path = lastFor path seen.

(** How often the [UnlistenFn] of [ev] has been called. *)
Definition unlistenCount (ev : EventName) (h : Hook) : nat :=
  List.length (List.filter (eventEqb ev) (unlistenCalls h)).

(** Both listeners registered, their handles in the refs, nothing
    de-registered yet. *)
Definition fullyRegistered (h : Hook) : Prop :=
  pendingListen h = None /\
  unlistenProgressRef h = Some watermark_progress /\
  unlistenCompleteRef h = Some watermark_complete /\
  listeners h = [watermark_progress; watermark_complete] /\
  unlistenCalls h = [].

Definition held (ref : option UnlistenFn) : nat :=
  match ref with Some _ => 1 | None => 0 end.

(** The calls made so far and the handle still held never add up to more
    than one per listener, through all stages of the registration. *)
Definition unlistenBudget (h : Hook) : Prop :=
  (forall u, unlistenProgressRef h = Some u -> u = watermark_progress) /\
  (forall u, unlistenCompleteRef h = Some u -> u = watermark_complete) /\
  match pendingListen h with
  | Some watermark_progress =>
      unlistenProgressRef h = None /\ unlistenCompleteRef h = None /\
      unlistenCalls h = []
  | Some watermark_complete =>
      unlistenCompleteRef h = None /\
      unlistenCount watermark_complete h = 0 /\
      unlistenCount watermark_progress h + held (unlistenProgressRef h) <= 1
  | None =>
      unlistenCount watermark_progress h + held (unlistenProgressRef h) <= 1 /\
      unlistenCount watermark_complete h + held (unlistenCompleteRef h) <= 1
  end.

(** Disposal before the first [listen] has settled, and disposal between
    the two. *)
Definition unmountFirst : list Step :=
  [Unmount; ListenSettled true; ListenSettled true].
Definition unmountBetween : list Step :=
  [ListenSettled true; Unmount; ListenSettled true].

End Observation.

Module Conduct.
Import Types Processor Observation.

(** The arguments of the calls of [processBatch] in a trace that pass
    validation, in order. *)
Fixpoint validBatches (trace : list Step) : list InvokeArgs :=
  match trace with
  | [] => []
  | CallProcessBatch files config outputDir :: rest =>
      match validateInputs files config outputDir with
      | None => argsOf files config outputDir :: validBatches rest
      | Some _ => validBatches rest
      end
  | _ :: rest => validBatches rest
  end.

(** What the views may rely on in each state. *)
Definition consistent (h : Hook) : Prop :=
  (processingState h = idle -> result h = None /\ error h = None) /\
  (processingState h = processing ->
     result h = None /\ error h = None /\ isCancelledRef h = false) /\
  (processingState h = Types.error -> error h <> None) /\
  (processingState h = cancelled -> isCancelledRef h = true) /\
  (processingState h = complete ->
     isCancelledRef h = false /\ (isMounted h = true -> result h <> None)).

(** An event of the channel. *)
Definition isEmit (s : Step) : bool :=
  match s with
  | EmitProgress _ => true
  | EmitComplete _ => true
  | _ => false
  end.

(** The cells of the hook that the views read. *)
Definition visible (h : Hook)
  : ProcessingState * JS.Map ProgressPayload * option BatchResult
    * option string :=
  (processingState h, progress h, result h, error h).

(** A path with every [/] turned into a backslash. *)
Fixpoint backslashed (s : string) : string :=
  match s with
  | EmptyString => EmptyString
  | String c rest =>
      String (if FileSelection.isSlash c then "\"%char else c)
             (backslashed rest)
  end.

(** No path separator occurs in [s]. *)
Definition plainName (s : string) : bool :=
  JS.allChars (fun c => negb (FileSelection.isSlash c)) s.

(** The result the complete listener records at a step: the payload of a
    complete event that reaches the registered listener of a mounted hook
    takes the place of what was recorded before. *)
Definition recordedAfter (h : Hook) (s : Step) (before : option BatchResult)
  : option BatchResult :=
  match s with
  | EmitComplete payload =>
      if isListening h watermark_complete && isMounted h
      then Some payload else before
  | _ => before
  end.

(** The result recorded over a trace that starts at [h] with [before]. *)
Fixpoint recorded (h : Hook) (trace : list Step) (before : option BatchResult)
  : option BatchResult :=
  match trace with
  | [] => before
  | s :: rest => recorded (step h s) rest (recordedAfter h s before)
  end.

Definition isComplete (s : Step) : bool :=
  match s with
  | EmitComplete _ => true
  | _ => false
  end.

(** The rejected run as the specification words it: after the rejection
    the state is error, the error is the rejection's message, and no
    result is recorded, whatever happened between the call and the
    rejection. *)
Definition spec_rejected_run (h : Hook) (files : list FileItem)
    (config : WatermarkConfig) (outputDir : string) (err : Thrown)
    (between : list Step) : Prop :=
  let h3 := step (steps (step h (CallProcessBatch files config outputDir))
                        between)
                 (InvokeSettled (rejected err)) in
  processingState h3 = Types.error /\
  error h3 = Some (messageOf err) /\
  result h3 = None.

(** A file of the result that succeeded and has an output path. *)
Definition hasOutput (f : FileResult) : Prop :=
  status f = success /\
  exists out, outputPath f = Some out /\ out <> "".

End Conduct.

(* ================================================================== *)
(** * Facts about the JavaScript built-ins                              *)
(* ================================================================== *)

(** Splits a conjunction into its conjuncts, and nothing else. *)
Ltac conjs := repeat match goal with |- _ /\ _ => split end.

Module JSFacts.
Import JS.

Lemma trimEnd_head_kept (c : ascii) (s : string) :
  isWhiteSpace c = false -> falsy (trimEnd (String c s)) = false.
Proof.
  intros Hc. simpl. destruct (trimEnd s); [rewrite Hc|]; reflexivity.
Qed.

Lemma trimStart_shape (s : string) :
  (allChars isWhiteSpace s = true /\ trimStart s = EmptyString) \/
  (allChars isWhiteSpace s = false /\
   exists c rest, trimStart s = String c rest /\ isWhiteSpace c = false).
Proof.
  induction s as [|c s IH]; simpl.
  - left; split; reflexivity.
  - destruct (isWhiteSpace c) eqn:Hc; simpl.
    + exact IH.
    + right; split; [reflexivity|]. exists c, s. split; [reflexivity|exact Hc].
Qed.

(** [s.trim()] is empty exactly when [s] consists of white space only. *)
Lemma trim_empty_iff_blank (s : string) :
  falsy (trim s) = allChars isWhiteSpace s.
Proof.
  unfold trim.
  destruct (trimStart_shape s) as [[Ha Ht]|[Ha (c & rest & Ht & Hc)]];
    rewrite Ha, Ht.
  - reflexivity.
  - apply trimEnd_head_kept; exact Hc.
Qed.

Lemma existsb_eqb_In (xs : list string) (x : string) :
  includes xs x = true <-> In x xs.
Proof.
  unfold includes. rewrite existsb_exists. split.
  - intros (y & Hy & He). apply String.eqb_eq in He. subst; exact Hy.
  - intros H. exists x. split; [exact H|apply String.eqb_refl].
Qed.

Section MapFacts.
Context {V : Type}.
Implicit Types (m : Map V) (k : string) (v : V).

Lemma get_set m k v k' :
  get (set m k v) k' = if String.eqb k' k then Some v else get m k'.
Proof.
  induction m as [|[k0 v0] m IH]; simpl.
  - reflexivity.
  - destruct (String.eqb k k0) eqn:E; simpl.
    + apply String.eqb_eq in E; subst k0.
      destruct (String.eqb k' k); reflexivity.
    + rewrite IH. destruct (String.eqb k' k0) eqn:E0; [|reflexivity].
      apply String.eqb_eq in E0; subst k0.
      rewrite String.eqb_sym, E. reflexivity.
Qed.

Lemma keys_set_In m k v k' :
  In k' (keys (set m k v)) <-> k' = k \/ In k' (keys m).
Proof.
  unfold keys. induction m as [|[k0 v0] m IH]; simpl.
  - intuition congruence.
  - destruct (String.eqb k k0) eqn:E; simpl.
    + apply String.eqb_eq in E; subst k0. intuition congruence.
    + rewrite IH. intuition congruence.
Qed.

Lemma keys_set_NoDup m k v :
  NoDup (keys m) -> NoDup (keys (set m k v)).
Proof.
  unfold keys. induction m as [|[k0 v0] m IH]; simpl; intros Hnd.
  - constructor; [intros []|constructor].
  - inversion Hnd as [|? ? Hnotin Hnd']; subst.
    destruct (String.eqb k k0) eqn:E; simpl.
    + constructor; assumption.
    + constructor; [|apply IH; exact Hnd'].
      intros Hin. apply (keys_set_In m k v k0) in Hin.
      destruct Hin as [->|Hin]; [|exact (Hnotin Hin)].
      rewrite String.eqb_refl in E. discriminate.
Qed.

Lemma set_entries m k v (keyOf : V -> string) :
  keyOf v = k ->
  Forall (fun e => fst e = keyOf (snd e)) m ->
  Forall (fun e => fst e = keyOf (snd e)) (set m k v).
Proof.
  intros Hk. induction m as [|[k0 v0] m IH]; simpl; intros Hall.
  - constructor; [simpl; congruence|constructor].
  - apply Forall_cons_iff in Hall. destruct Hall as [Hhead Htail].
    destruct (String.eqb k k0) eqn:E.
    + apply String.eqb_eq in E.
      constructor; [simpl; congruence|assumption].
    + constructor; [assumption|apply IH; assumption].
Qed.

Lemma absent_key_no_entry m (keyOf : V -> string) k :
  ~ In k (keys m) ->
  Forall (fun e => fst e = keyOf (snd e)) m ->
  List.filter (fun x => String.eqb (keyOf x) k) (values m) = [].
Proof.
  unfold keys, values. induction m as [|[k0 v0] m IH]; simpl; intros Hnotin Hall.
  - reflexivity.
  - apply Forall_cons_iff in Hall. destruct Hall as [Hhead Htail].
    simpl in Hhead.
    destruct (String.eqb (keyOf v0) k) eqn:E.
    + apply String.eqb_eq in E. exfalso. apply Hnotin. left. congruence.
    + apply IH; [|exact Htail]. intros Hin. apply Hnotin. right. exact Hin.
Qed.

(** With distinct keys, at most one entry answers to a key. *)
Lemma at_most_one_per_key m (keyOf : V -> string) k :
  NoDup (keys m) ->
  Forall (fun e => fst e = keyOf (snd e)) m ->
  List.length (List.filter (fun x => String.eqb (keyOf x) k) (values m)) <= 1.
Proof.
  induction m as [|[k0 v0] m IH]; intros Hnd Hall.
  - simpl. lia.
  - apply NoDup_cons_iff in Hnd. destruct Hnd as [Hnotin Hnd].
    apply Forall_cons_iff in Hall. destruct Hall as [Hhead Htail].
    simpl in Hhead. specialize (IH Hnd Htail).
    change (values ((k0, v0) :: m)) with (v0 :: values m). simpl.
    destruct (String.eqb (keyOf v0) k) eqn:E; [|exact IH].
    apply String.eqb_eq in E.
    rewrite (absent_key_no_entry m keyOf k); [simpl; lia| |exact Htail].
    rewrite <- E, <- Hhead. exact Hnotin.
Qed.
End MapFacts.

Section SortFacts.
Context {A : Type} (key : A -> Z).
Let le (a b : A) : Prop := (key a <= key b)%Z.

Lemma insertSorted_perm (x : A) (xs : list A) :
  Permutation (insertSorted key x xs) (x :: xs).
Proof.
  induction xs as [|y ys IH]; simpl.
  - apply Permutation_refl.
  - destruct (key x - key y <? 0)%Z.
    + apply Permutation_refl.
    + eapply Permutation_trans; [apply perm_skip; exact IH|apply perm_swap].
Qed.

Lemma insertSorted_HdRel (a x : A) (xs : list A) :
  le a x -> HdRel le a xs -> HdRel le a (insertSorted key x xs).
Proof.
  intros Hax Hhd. destruct xs as [|y ys]; simpl.
  - constructor; exact Hax.
  - destruct (key x - key y <? 0)%Z; constructor; [exact Hax|].
    inversion Hhd; assumption.
Qed.

Lemma insertSorted_sorted (x : A) (xs : list A) :
  Sorted le xs -> Sorted le (insertSorted key x xs).
Proof.
  induction xs as [|y ys IH]; simpl; intros Hs.
  - repeat constructor.
  - destruct (key x - key y <? 0)%Z eqn:E.
    + apply Z.ltb_lt in E. constructor; [exact Hs|].
      constructor. unfold le. lia.
    + apply Z.ltb_ge in E. inversion Hs as [|? ? Hs' Hhd]; subst.
      constructor; [apply IH; exact Hs'|].
      apply insertSorted_HdRel; [unfold le; lia|exact Hhd].
Qed.

Lemma sort_from (acc xs : list A) :
  Sorted le acc ->
  Sorted le (List.fold_left (fun a x => insertSorted key x a) xs acc) /\
  Permutation (List.fold_left (fun a x => insertSorted key x a) xs acc)
              (acc ++ xs).
Proof.
  revert acc. induction xs as [|x xs IH]; simpl; intros acc Hs.
  - split; [exact Hs|rewrite app_nil_r; apply Permutation_refl].
  - destruct (IH (insertSorted key x acc) (insertSorted_sorted x acc Hs))
      as [Hsorted Hperm].
    split; [exact Hsorted|].
    eapply Permutation_trans; [exact Hperm|].
    eapply Permutation_trans;
      [apply Permutation_app_tail; apply insertSorted_perm|].
    simpl. apply Permutation_middle.
Qed.

Lemma sort_sorted (xs : list A) : Sorted le (sort key xs).
Proof. apply (sort_from [] xs). constructor. Qed.

Lemma sort_perm (xs : list A) : Permutation (sort key xs) xs.
Proof. apply (sort_from [] xs). constructor. Qed.
End SortFacts.

End JSFacts.

(* ================================================================== *)
(** * The File Classifier                                               *)
(* ================================================================== *)

Module FileSelectionFacts.
Import Types FileSelection.

Lemma dotted_suffix_has_dot (stem ext : string) :
  JS.allChars (fun d => negb (isDot d)) (stem ++ String "." ext) = false.
Proof.
  induction stem as [|c stem IH]; simpl.
  - reflexivity.
  - rewrite IH. apply andb_false_r.
Qed.

(** [getExtension] returns, in lower case, what follows the last dot. *)
Lemma getExtension_of_dotted (stem ext : string) :
  JS.falsy ext = false ->
  JS.allChars (fun d => negb (isDot d)) ext = true ->
  getExtension (stem ++ String "." ext) = JS.toLowerCase ext.
Proof.
  intros Hne Hnodot. unfold getExtension.
  assert (H : execExtension (stem ++ String "." ext) = Some ext).
  { induction stem as [|c stem IH]; simpl.
    - rewrite Hne, Hnodot. reflexivity.
    - rewrite dotted_suffix_has_dot, andb_false_r. exact IH. }
  rewrite H. reflexivity.
Qed.

Lemma image_video_disjoint (e : string) :
  In e VIDEO_EXTENSIONS -> ~ In e IMAGE_EXTENSIONS.
Proof.
  unfold VIDEO_EXTENSIONS, IMAGE_EXTENSIONS. simpl.
  intros Hv Hi.
  repeat (destruct Hv as [Hv|Hv]; [subst e; intuition discriminate|]).
  exact Hv.
Qed.

(** C4, as stated, fails: a path whose extension is in neither table is
    classified all the same, as a video. *)
Lemma unsupported_extension_is_video :
  type (toFileItem "/home/user/notes.txt") = video /\
  getExtension (name (toFileItem "/home/user/notes.txt")) = "txt" /\
  (spec_classification "/home/user/notes.txt" <-> False).
Proof.
  split; [reflexivity|]. split; [reflexivity|].
  split; [|intros []].
  intros [_ [Hvideo _]].
  assert (Hin : In "txt" VIDEO_EXTENSIONS) by (apply Hvideo; reflexivity).
  unfold VIDEO_EXTENSIONS in Hin. simpl in Hin. intuition discriminate.
Qed.

(** C4, amended: the classifier is total.  It keeps the path, takes the
    last path segment as the name, answers image exactly when the
    lower-cased extension of the name is an image extension, and answers
    video for every other path; the video extensions are among those. *)
Theorem toFileItem_image_or_else_video (p : string) :
  let item := toFileItem p in
  path item = p /\
  name item = JS.lastOr (JS.split isSlash p) p /\
  (type item = image <-> In (getExtension (name item)) IMAGE_EXTENSIONS) /\
  (type item = video <-> ~ In (getExtension (name item)) IMAGE_EXTENSIONS) /\
  (In (getExtension (name item)) VIDEO_EXTENSIONS -> type item = video).
Proof.
  cbv zeta. unfold toFileItem. cbn [path name type].
  set (ext := getExtension (JS.lastOr (JS.split isSlash p) p)).
  pose proof (JSFacts.existsb_eqb_In IMAGE_EXTENSIONS ext) as Hinc.
  destruct (JS.includes IMAGE_EXTENSIONS ext) eqn:E.
  - assert (Hin : In ext IMAGE_EXTENSIONS) by (apply Hinc; reflexivity).
    repeat split; try reflexivity; try (intros; assumption).
    + intros Hd; discriminate Hd.
    + intros Hn; contradiction.
    + intros Hv. exfalso. exact (image_video_disjoint ext Hv Hin).
  - assert (Hnin : ~ In ext IMAGE_EXTENSIONS).
    { intros Hin. apply Hinc in Hin. discriminate Hin. }
    repeat split; try reflexivity; try (intros; assumption).
    + intros Hd; discriminate Hd.
    + intros Hin; contradiction.
Qed.

End FileSelectionFacts.

(* ================================================================== *)
(** * The configuration store                                           *)
(* ================================================================== *)

Module WatermarkStoreFacts.
Import Types WatermarkStore Scenarios.

Lemma ltb_false_le (a b : Q) : ltb a b = false -> (b <= a)%Q.
Proof.
  unfold ltb. intros H. apply negb_false_iff in H.
  apply Qle_bool_iff. exact H.
Qed.

Lemma clamped_in_unit_square (pos : Point) : inUnitSquare (clamped pos).
Proof.
  unfold inUnitSquare, clamped, JS.Math_max, JS.Math_min. cbn [px py].
  repeat split;
    first [ apply Q.le_max_l
          | apply Q.max_lub; [discriminate|apply Q.le_min_l] ].
Qed.

Lemma inRange_in_unit_square (pos : Point) :
  outOfRange pos = false -> inUnitSquare pos.
Proof.
  unfold outOfRange. intros H.
  repeat (apply orb_false_iff in H; destruct H as [H ?]).
  unfold inUnitSquare. repeat split; apply ltb_false_le; assumption.
Qed.

(** C7, as stated, fails: in preset mode the out-of-range position of
    Scenario F is stored as supplied. *)
Lemma preset_mode_stores_unclamped :
  customPosition (config (updateConfig presetStore scenarioF))
    = Some {| px := 3 # 2; py := - 1 # 5 |} /\
  clamped {| px := 3 # 2; py := - 1 # 5 |} = {| px := 1; py := 0 |} /\
  (spec_clamped presetStore scenarioF <-> False).
Proof.
  split; [reflexivity|]. split; [reflexivity|].
  split; [|intros []].
  intros Hspec. specialize (Hspec _ eq_refl).
  vm_compute in Hspec. discriminate Hspec.
Qed.

(** C7, amended: an update that supplies a custom position and leaves the
    configuration in custom mode stores that position clamped
    componentwise to the unit square (the position itself when it is in
    range), which is then the position in use; an update that supplies one
    and leaves another mode stores it as supplied.  Either way the update
    is applied and persisted, never rejected. *)
Theorem updateConfig_clamps_in_custom_mode
    (st : Store) (partial : PartialConfig) (pos : Point) :
  p_customPosition partial = Some pos ->
  let merged := spread (config st) partial in
  let st' := updateConfig st partial in
  stored_watermarkConfig st' = Some (config st') /\
  positionMode (config st') = positionMode merged /\
  watermarkType (config st') = watermarkType merged /\
  text (config st') = text merged /\
  imagePath (config st') = imagePath merged /\
  position (config st') = position merged /\
  opacity (config st') = opacity merged /\
  (positionMode merged = Some custom ->
     exists stored,
       customPosition (config st') = Some stored /\
       inUnitSquare stored /\
       (outOfRange pos = true -> stored = clamped pos) /\
       (outOfRange pos = false -> stored = pos) /\
       (forall source text image,
          let wm := PreviewCanvas.watermarkSize (config st') text image in
          PreviewCanvas.watermarkPosition (Some source) (config st') text image
          = {| px := PreviewCanvas.width source * px stored
                     - PreviewCanvas.width wm / 2;
               py := PreviewCanvas.height source * py stored
                     - PreviewCanvas.height wm / 2 |}%Q)) /\
  (positionMode merged <> Some custom ->
     customPosition (config st') = Some pos /\
     (forall source text image,
        let wm := PreviewCanvas.watermarkSize (config st') text image in
        PreviewCanvas.watermarkPosition (Some source) (config st') text image
        = Canvas.calculatePosition (position merged)
            (PreviewCanvas.width source) (PreviewCanvas.height source)
            (PreviewCanvas.width wm) (PreviewCanvas.height wm))).
Proof.
  intros Hpos merged st'. subst merged st'. unfold updateConfig.
  rewrite Hpos. cbn [config stored_watermarkConfig].
  set (merged := spread (config st) partial).
  assert (Hcp : customPosition merged = Some pos).
  { unfold merged, spread. cbn [customPosition]. rewrite Hpos. reflexivity. }
  unfold PreviewCanvas.watermarkPosition.
  destruct (positionMode merged) as [[|]|] eqn:Hmode.
  - (* preset *)
    rewrite Hmode. conjs; try reflexivity.
    + intros Hd; discriminate Hd.
    + intros _. split; [exact Hcp|reflexivity].
  - (* custom *)
    destruct (outOfRange pos) eqn:Hout.
    + cbn [withCustomPosition positionMode watermarkType text imagePath
             position opacity customPosition].
      rewrite Hmode. conjs; try reflexivity.
      * intros _. exists (clamped pos). conjs; try reflexivity.
        -- apply clamped_in_unit_square.
        -- intros Hd; discriminate Hd.
      * intros Hne. exfalso. apply Hne. reflexivity.
    + rewrite Hmode, Hcp. conjs; try reflexivity.
      * intros _. exists pos. conjs; try reflexivity.
        -- apply inRange_in_unit_square; exact Hout.
        -- intros Hd; discriminate Hd.
      * intros Hne. exfalso. apply Hne. reflexivity.
  - (* positionMode absent *)
    rewrite Hmode. conjs; try reflexivity.
    + intros Hd; discriminate Hd.
    + intros _. split; [exact Hcp|reflexivity].
Qed.

(** Scenario F in custom mode: the position is clamped to (1, 0). *)
Lemma updateConfig_clamps_scenario_F :
  p_customPosition scenarioF = Some {| px := 3 # 2; py := - 1 # 5 |} /\
  positionMode (spread (config customStore) scenarioF) = Some custom /\
  customPosition (config (updateConfig customStore scenarioF))
    = Some {| px := 1; py := 0 |}.
Proof.
  split; [reflexivity|]. split; [reflexivity|].
  pose proof (updateConfig_clamps_in_custom_mode customStore scenarioF
                {| px := 3 # 2; py := - 1 # 5 |} eq_refl) as H.
  cbv zeta in H.
  destruct H as (_ & _ & _ & _ & _ & _ & _ & Hcustom & _).
  destruct (Hcustom eq_refl) as (stored & Hstored & _ & Hclamp & _).
  rewrite Hstored, (Hclamp eq_refl). reflexivity.
Defined.

End WatermarkStoreFacts.

(* ================================================================== *)
(** * The processing controller: validation and batch start             *)
(* ================================================================== *)

Module ValidationFacts.
Import Types Processor Observation Scenarios.
Import VALIDATION_MESSAGES.

Lemma validation_message_truthy files config outputDir msg :
  validateInputs files config outputDir = Some msg -> JS.falsy msg = false.
Proof.
  unfold validateInputs.
  destruct files; [intros [= <-]; reflexivity|].
  destruct (JS.falsy outputDir); [intros [= <-]; reflexivity|].
  destruct (watermarkType config).
  - destruct (JS.falsy (JS.trim (text config))); [intros [= <-]; reflexivity|].
    intros Hd; discriminate Hd.
  - destruct (negb (JS.truthy (imagePath config))); [intros [= <-]; reflexivity|].
    intros Hd; discriminate Hd.
Qed.

Lemma processBatch_invalid files config outputDir msg :
  validateInputs files config outputDir = Some msg ->
  processBatch files config outputDir
  = [setError (Some msg); setProcessingState Types.error;
     console "Watermark processing validation failed"].
Proof.
  intros Hv. unfold processBatch. rewrite Hv. cbn [JS.truthy].
  rewrite (validation_message_truthy _ _ _ _ Hv). reflexivity.
Qed.

Lemma processBatch_valid files config outputDir :
  validateInputs files config outputDir = None ->
  processBatch files config outputDir
  = [setProcessingState processing; setError None; setResult None;
     setProgress (fun _ => []); setIsCancelledRef false]
    ++ [invoke (argsOf files config outputDir)].
Proof.
  intros Hv. unfold processBatch. rewrite Hv. reflexivity.
Qed.

Lemma step_invalid h files config outputDir msg :
  validateInputs files config outputDir = Some msg ->
  step h (CallProcessBatch files config outputDir)
  = run h [setError (Some msg); setProcessingState Types.error;
           console "Watermark processing validation failed"].
Proof.
  intros Hv. unfold step. rewrite (processBatch_invalid _ _ _ _ Hv).
  reflexivity.
Qed.

Lemma step_valid h files config outputDir :
  validateInputs files config outputDir = None ->
  step h (CallProcessBatch files config outputDir)
  = run h ([setProcessingState processing; setError None; setResult None;
            setProgress (fun _ => []); setIsCancelledRef false]
           ++ [invoke (argsOf files config outputDir)]).
Proof.
  intros Hv. unfold step. rewrite (processBatch_valid _ _ _ Hv).
  reflexivity.
Qed.

(** Within a run, only the complete listener touches the result. *)
Lemma result_step (h : Hook) (s : Step) :
  withinRun s = true ->
  result (step h s) = Conduct.recordedAfter h s (result h).
Proof.
  intros Hrun.
  destruct s as [ok|payload|payload|fs config outputDir|outcome| |];
    try discriminate Hrun; unfold step; cbn [Conduct.recordedAfter].
  - destruct h as [st pr re er up uc ic im pl ls ul iv]. cbn [pendingListen].
    destruct pl as [[|]|]; destruct ok; reflexivity.
  - destruct (isListening h watermark_progress); [|reflexivity].
    unfold onProgress.
    destruct (negb (isMounted h) || isCancelledRef h); [reflexivity|].
    destruct h. destruct (pstatus payload); reflexivity.
  - destruct (isListening h watermark_complete); [|reflexivity].
    unfold onComplete.
    destruct h as [st pr re er up uc ic im pl ls ul iv].
    cbn [isMounted isCancelledRef andb]. destruct im, ic; reflexivity.
  - destruct h, outcome; reflexivity.
  - destruct h as [st pr re er up uc ic im pl ls ul iv].
    cbn [processingState]. destruct st; reflexivity.
Qed.

Lemma result_steps (trace : list Step) :
  forall h,
    List.forallb withinRun trace = true ->
    result (steps h trace) = Conduct.recorded h trace (result h).
Proof.
  induction trace as [|s trace IH]; intros h Hall; [reflexivity|].
  simpl in Hall. apply andb_true_iff in Hall. destruct Hall as [Hs Hall].
  simpl. rewrite (IH _ Hall), (result_step h s Hs). reflexivity.
Qed.

Lemma recorded_without_completion (trace : list Step) :
  forall h before,
    List.existsb Conduct.isComplete trace = false ->
    Conduct.recorded h trace before = before.
Proof.
  induction trace as [|s trace IH]; intros h before Hnone; [reflexivity|].
  simpl in Hnone. apply orb_false_iff in Hnone. destruct Hnone as [Hs Hnone].
  simpl. rewrite (IH _ _ Hnone).
  destruct s; try reflexivity. discriminate Hs.
Qed.

Lemma falsy_empty (s : string) : JS.falsy s = true <-> s = "".
Proof. destruct s; simpl; split; congruence. Qed.

(** C1: the checks run in the order files, output directory, watermark
    text or watermark image, and the first one that fails gives the
    message; on a failure the state becomes error, the message is stored
    and [invoke] is not called (nor is anything else touched). *)
Theorem validation_reports_first_failure
    (h : Hook) (files : list FileItem) (config : WatermarkConfig)
    (outputDir : string) :
  (files = [] ->
     validateInputs files config outputDir = Some noFiles) /\
  (files <> [] -> outputDir = "" ->
     validateInputs files config outputDir = Some noOutput) /\
  (files <> [] -> outputDir <> "" -> watermarkType config = text_type ->
   JS.allChars JS.isWhiteSpace (text config) = true ->
     validateInputs files config outputDir = Some emptyText) /\
  (files <> [] -> outputDir <> "" -> watermarkType config = image_type ->
   imagePath config = None ->
     validateInputs files config outputDir = Some missingImage) /\
  (forall msg, validateInputs files config outputDir = Some msg ->
     let h' := step h (CallProcessBatch files config outputDir) in
     processingState h' = Types.error /\
     error h' = Some msg /\
     invokeCalls h' = invokeCalls h /\
     List.existsb isInvoke (processBatch files config outputDir) = false /\
     progress h' = progress h /\
     result h' = result h /\
     isCancelledRef h' = isCancelledRef h).
Proof.
  conjs.
  - intros ->. reflexivity.
  - intros Hf ->. destruct files; [contradiction|]. reflexivity.
  - intros Hf Ho Ht Hblank. destruct files; [contradiction|].
    unfold validateInputs.
    destruct (JS.falsy outputDir) eqn:E;
      [apply falsy_empty in E; contradiction|].
    rewrite Ht, JSFacts.trim_empty_iff_blank, Hblank. reflexivity.
  - intros Hf Ho Ht Hi. destruct files; [contradiction|].
    unfold validateInputs.
    destruct (JS.falsy outputDir) eqn:E;
      [apply falsy_empty in E; contradiction|].
    rewrite Ht, Hi. reflexivity.
  - intros msg Hv. cbv zeta. unfold step.
    rewrite (processBatch_invalid _ _ _ _ Hv).
    destruct h. cbn. conjs; reflexivity.
Qed.

(** Scenario B and Scenario D, through the theorem. *)
Lemma validation_reports_first_failure_scenarios :
  error (step mount (CallProcessBatch [] sampleConfig "/output"))
    = Some "Add files before processing." /\
  error (step mount (CallProcessBatch sampleFiles sampleConfig ""))
    = Some "Please select an output directory." /\
  error (step mount (CallProcessBatch sampleFiles imageConfig "/out"))
    = Some "Select a watermark image before processing." /\
  invokeCalls (step mount (CallProcessBatch sampleFiles imageConfig "/out"))
    = [].
Proof.
  destruct (validation_reports_first_failure mount [] sampleConfig "/output")
    as (H1 & _ & _ & _ & K1).
  destruct (validation_reports_first_failure mount sampleFiles sampleConfig "")
    as (_ & H2 & _ & _ & K2).
  destruct (validation_reports_first_failure mount sampleFiles imageConfig "/out")
    as (_ & _ & _ & H4 & K4).
  specialize (H1 eq_refl).
  assert (H2' := H2 ltac:(discriminate) eq_refl).
  assert (H4' := H4 ltac:(discriminate) ltac:(discriminate) eq_refl eq_refl).
  conjs.
  - apply (K1 _ H1).
  - apply (K2 _ H2').
  - apply (K4 _ H4').
  - destruct (K4 _ H4') as (_ & _ & Hinv & _). exact Hinv.
Defined.

(** C8: a batch that fails validation fails the same way when it is
    submitted again, at once or after anything else has happened: the same
    message, state error, and no call of [invoke] by either attempt; the
    second attempt leaves the hook exactly as the first left it. *)
Theorem validation_is_idempotent
    (h : Hook) (files : list FileItem) (config : WatermarkConfig)
    (outputDir : string) (msg : string) :
  validateInputs files config outputDir = Some msg ->
  let again := CallProcessBatch files config outputDir in
  let h1 := step h again in
  let h2 := step h1 again in
  error h1 = Some msg /\ processingState h1 = Types.error /\
  error h2 = Some msg /\ processingState h2 = Types.error /\
  invokeCalls h1 = invokeCalls h /\ invokeCalls h2 = invokeCalls h /\
  h2 = h1 /\
  (forall between,
     let h3 := step (steps h1 between) again in
     error h3 = Some msg /\ processingState h3 = Types.error /\
     invokeCalls h3 = invokeCalls (steps h1 between)).
Proof.
  intros Hv. cbv zeta.
  rewrite !(step_invalid _ _ _ _ _ Hv).
  conjs; try (destruct h; reflexivity).
  intros between. rewrite !(step_invalid _ _ _ _ _ Hv).
  destruct (steps _ between). cbn. conjs; reflexivity.
Qed.

Lemma validation_is_idempotent_scenario_B :
  validateInputs [] sampleConfig "/output"
    = Some "Add files before processing." /\
  step (step mount (CallProcessBatch [] sampleConfig "/output"))
       (CallProcessBatch [] sampleConfig "/output")
  = step mount (CallProcessBatch [] sampleConfig "/output").
Proof.
  split; [reflexivity|].
  apply (validation_is_idempotent mount [] sampleConfig "/output"
           "Add files before processing." eq_refl).
Defined.

(** C5: a batch that passes validation performs, before the call of
    [invoke], the effects that leave the state at processing, the progress
    map empty, no result, no error and the cancellation flag cleared; the
    call of [invoke] is the last effect and changes none of these. *)
Theorem valid_batch_resets_before_invoke
    (h : Hook) (files : list FileItem) (config : WatermarkConfig)
    (outputDir : string) :
  validateInputs files config outputDir = None ->
  exists before,
    processBatch files config outputDir
      = before ++ [invoke (argsOf files config outputDir)] /\
    List.existsb isInvoke before = false /\
    let atInvoke := run h before in
    let h' := step h (CallProcessBatch files config outputDir) in
    processingState atInvoke = processing /\
    progress atInvoke = [] /\
    result atInvoke = None /\
    error atInvoke = None /\
    isCancelledRef atInvoke = false /\
    invokeCalls atInvoke = invokeCalls h /\
    h' = perform atInvoke (invoke (argsOf files config outputDir)) /\
    processingState h' = processing /\
    progress h' = [] /\
    result h' = None /\
    error h' = None /\
    isCancelledRef h' = false /\
    invokeCalls h' = invokeCalls h ++ [argsOf files config outputDir].
Proof.
  intros Hv.
  exists [setProcessingState processing; setError None; setResult None;
          setProgress (fun _ => []); setIsCancelledRef false].
  split; [apply processBatch_valid; exact Hv|].
  split; [reflexivity|].
  cbv zeta. rewrite (step_valid _ _ _ _ Hv).
  destruct h. cbn. conjs; reflexivity.
Qed.

(** A finished, cancelled run with one stored payload, then a new batch. *)
Lemma valid_batch_resets_stale_run :
  validateInputs sampleFiles sampleConfig "/output" = None /\
  let stale :=
    steps registered
      [CallProcessBatch sampleFiles sampleConfig "/output";
       EmitProgress {| filePath := "/input/a.jpg"; fileIndex := 0;
                       totalFiles := 2; pstatus := st_processing |};
       CallCancelProcessing;
       EmitComplete {| files := []; total := 0; successful := 0;
                       br_failed := 0 |}] in
  isCancelledRef stale = true /\
  progress stale <> [] /\
  result stale <> None /\
  let h' := step stale (CallProcessBatch sampleFiles sampleConfig "/output") in
  processingState h' = processing /\ progress h' = [] /\ result h' = None /\
  error h' = None /\ isCancelledRef h' = false.
Proof.
  split; [reflexivity|]. cbv zeta.
  split; [reflexivity|].
  split; [discriminate|].
  split; [discriminate|].
  match goal with
  | |- context [step ?s (CallProcessBatch _ _ _)] =>
      destruct (valid_batch_resets_before_invoke s sampleFiles sampleConfig
                  "/output" eq_refl) as (before & _ & _ & H)
  end.
  cbv zeta in H.
  destruct H as (_ & _ & _ & _ & _ & _ & _ & Hs & Hp & Hr & He & Hc & _).
  conjs; assumption.
Defined.

(** C3, as stated, fails: a complete event that reaches the listener
    between the accepted call and the rejection is recorded, and the
    rejection leaves it in place; the state is error with a result. *)
Lemma rejected_after_completion_keeps_the_result :
  let payload := {| files := []; total := 2%Z; successful := 2%Z;
                    br_failed := 0%Z |} in
  let err := ErrorObject "FFmpeg binary not found" in
  let h3 :=
    steps registered
      [CallProcessBatch sampleFiles sampleConfig "/output";
       EmitComplete payload;
       InvokeSettled (rejected err)] in
  validateInputs sampleFiles sampleConfig "/output" = None /\
  processingState h3 = Types.error /\
  error h3 = Some "FFmpeg binary not found" /\
  result h3 = Some payload /\
  (Conduct.spec_rejected_run registered sampleFiles sampleConfig "/output"
     err [EmitComplete payload] <-> False).
Proof.
  cbv zeta. do 4 (split; [reflexivity|]). split.
  - intros (_ & _ & Hr). vm_compute in Hr. discriminate Hr.
  - intros [].
Qed.

(** C3, amended: when a batch passes validation and the call of [invoke]
    is then rejected, whatever steps of the run come in between (progress
    and complete events, settling promises, cancellation), the state
    becomes error and the error is the message of what was thrown.  The
    rejection neither records nor clears a result: the result is what the
    complete listener recorded since the batch started, so none when no
    complete event came in between. *)
Theorem rejected_invoke_sets_error_and_keeps_the_result
    (h : Hook) (files : list FileItem) (config : WatermarkConfig)
    (outputDir : string) (err : Thrown) (between : list Step) :
  validateInputs files config outputDir = None ->
  List.forallb withinRun between = true ->
  let h1 := step h (CallProcessBatch files config outputDir) in
  let h2 := steps h1 between in
  let h3 := step h2 (InvokeSettled (rejected err)) in
  invokeCalls h1 = invokeCalls h ++ [argsOf files config outputDir] /\
  result h1 = None /\
  processingState h3 = Types.error /\
  error h3 = Some (messageOf err) /\
  result h3 = result h2 /\
  result h3 = Conduct.recorded h1 between None /\
  (List.existsb Conduct.isComplete between = false -> result h3 = None).
Proof.
  intros Hv Hall. cbv zeta.
  assert (H1 : result (step h (CallProcessBatch files config outputDir)) = None
               /\ invokeCalls (step h (CallProcessBatch files config outputDir))
                  = invokeCalls h ++ [argsOf files config outputDir]).
  { rewrite (step_valid _ _ _ _ Hv). destruct h. split; reflexivity. }
  destruct H1 as [Hr1 Hi1].
  pose proof (result_steps between
                (step h (CallProcessBatch files config outputDir)) Hall)
    as Hres.
  rewrite Hr1 in Hres.
  set (h2 := steps (step h (CallProcessBatch files config outputDir)) between)
    in *.
  assert (H3 : processingState (step h2 (InvokeSettled (rejected err)))
               = Types.error
               /\ error (step h2 (InvokeSettled (rejected err)))
                  = Some (messageOf err)
               /\ result (step h2 (InvokeSettled (rejected err))) = result h2).
  { destruct h2. conjs; reflexivity. }
  destruct H3 as (Hs3 & He3 & Hr3).
  conjs; try assumption.
  - rewrite Hr3. exact Hres.
  - intros Hnone. rewrite Hr3, Hres.
    apply recorded_without_completion. exact Hnone.
Qed.

(** The case of the test suite, [invoke] rejecting with
    [Error('FFmpeg binary not found')]: with progress events and a
    cancellation in between and no complete event, no result is recorded. *)
Lemma rejected_invoke_with_ffmpeg_missing :
  let between :=
    [EmitProgress {| filePath := "/input/a.jpg"; fileIndex := 0%Z;
                     totalFiles := 2%Z; pstatus := st_processing |};
     CallCancelProcessing] in
  validateInputs sampleFiles sampleConfig "/output" = None /\
  List.forallb withinRun between = true /\
  let h :=
    step (steps (step registered
                   (CallProcessBatch sampleFiles sampleConfig "/output"))
                between)
         (InvokeSettled (rejected (ErrorObject "FFmpeg binary not found"))) in
  processingState h = Types.error /\
  error h = Some "FFmpeg binary not found" /\
  result h = None.
Proof.
  cbv zeta. split; [reflexivity|]. split; [reflexivity|].
  destruct (rejected_invoke_sets_error_and_keeps_the_result
              registered sampleFiles sampleConfig "/output"
              (ErrorObject "FFmpeg binary not found")
              [EmitProgress {| filePath := "/input/a.jpg"; fileIndex := 0%Z;
                               totalFiles := 2%Z; pstatus := st_processing |};
               CallCancelProcessing]
              eq_refl eq_refl)
    as (_ & _ & Hs & He & _ & _ & Hnone).
  conjs; [exact Hs|exact He|exact (Hnone eq_refl)].
Defined.

(** C10: a complete event that reaches a mounted hook whose cancellation
    flag is clear stores its payload as the result and sets the state to
    complete, whatever the state was. *)
Theorem complete_event_sets_complete
    (h : Hook) (payload : BatchResult) :
  isMounted h = true ->
  isCancelledRef h = false ->
  isListening h watermark_complete = true ->
  let h' := step h (EmitComplete payload) in
  result h' = Some payload /\
  processingState h' = complete /\
  h' = run h (onComplete h payload) /\
  progress h' = progress h /\
  error h' = error h.
Proof.
  intros Hm Hc Hl. cbv zeta. unfold step. rewrite Hl.
  unfold onComplete. rewrite Hm, Hc. destruct h. cbn. conjs; reflexivity.
Qed.

(** An idle hook, and a hook in state error, both go to complete. *)
Lemma complete_event_sets_complete_from_idle_and_error :
  let payload := {| files := []; total := 0%Z; successful := 0%Z;
                    br_failed := 0%Z |} in
  let failed := step registered (CallProcessBatch [] sampleConfig "/output") in
  processingState registered = idle /\
  processingState (step registered (EmitComplete payload)) = complete /\
  processingState failed = Types.error /\
  processingState (step failed (EmitComplete payload)) = complete /\
  result (step failed (EmitComplete payload)) = Some payload.
Proof.
  cbv zeta. split; [reflexivity|].
  split; [apply (complete_event_sets_complete registered); reflexivity|].
  split; [reflexivity|].
  split; apply (complete_event_sets_complete
                  (step registered (CallProcessBatch [] sampleConfig "/output")));
    reflexivity.
Defined.

End ValidationFacts.

(* ================================================================== *)
(** * The processing controller: cancellation                           *)
(* ================================================================== *)

Module CancellationFacts.
Import Types Processor Observation Scenarios.

Lemma cancel_starts_cancelledRun (h : Hook) :
  processingState h = processing ->
  cancelledRun (progress h) (isMounted h) (step h CallCancelProcessing).
Proof.
  intros Hs. unfold step. rewrite Hs. destruct h. cbn.
  unfold cancelledRun. cbn. conjs; try reflexivity. left; reflexivity.
Qed.

(** No step of the run leaves a cancelled run. *)
Lemma cancelledRun_step frozenMap mounted (h : Hook) (s : Step) :
  withinRun s = true ->
  cancelledRun frozenMap mounted h ->
  cancelledRun frozenMap mounted (step h s).
Proof.
  intros Hrun (Hc & Hp & Hm & Hs).
  destruct h as [st pr re er up uc ic im pl ls ul iv].
  cbn in Hc, Hp, Hm, Hs. subst ic pr im.
  destruct s as [ok|payload|payload|files config outputDir|outcome| |];
    try discriminate Hrun; unfold step, cancelledRun.
  - (* ListenSettled *)
    cbn [pendingListen].
    destruct pl as [[|]|]; destruct ok; cbn; conjs; try reflexivity; exact Hs.
  - (* EmitProgress *)
    destruct (isListening _ watermark_progress);
      [|cbn; conjs; try reflexivity; exact Hs].
    unfold onProgress. cbn [isMounted isCancelledRef].
    rewrite orb_true_r. cbn. conjs; try reflexivity; exact Hs.
  - (* EmitComplete *)
    destruct (isListening _ watermark_complete);
      [|cbn; conjs; try reflexivity; exact Hs].
    unfold onComplete. cbn [isMounted isCancelledRef].
    destruct mounted; cbn; conjs; try reflexivity; try exact Hs.
    left; reflexivity.
  - (* InvokeSettled *)
    destruct outcome; cbn; conjs; try reflexivity; try exact Hs.
    right; reflexivity.
  - (* CallCancelProcessing *)
    cbn [processingState].
    destruct Hs as [-> | ->]; cbn; conjs; try reflexivity;
      [left|right]; reflexivity.
Qed.

Lemma cancelledRun_steps frozenMap mounted (trace : list Step) :
  forall h,
    List.forallb withinRun trace = true ->
    cancelledRun frozenMap mounted h ->
    cancelledRun frozenMap mounted (steps h trace).
Proof.
  induction trace as [|s trace IH]; intros h Hall Hinv; [exact Hinv|].
  simpl in Hall. apply andb_true_iff in Hall. destruct Hall as [Hs Hall].
  simpl. apply IH; [exact Hall|].
  apply cancelledRun_step; assumption.
Qed.

(** C2: after [cancelProcessing] in state processing, through every
    further step of the run, the cancellation flag stays set, the progress
    map stays what it was (a progress event that arrives changes nothing),
    the state is never complete, and a complete event that reaches the
    mounted hook stores its payload as the result and leaves the state
    cancelled. *)
Theorem cancelled_run_ignores_progress_and_stays_cancelled
    (h : Hook) (trace : list Step) :
  processingState h = processing ->
  List.forallb withinRun trace = true ->
  let h' := steps (step h CallCancelProcessing) trace in
  processingState (step h CallCancelProcessing) = cancelled /\
  isCancelledRef h' = true /\
  progress h' = progress h /\
  processingState h' <> complete /\
  (forall payload,
     step h' (EmitProgress payload) = h' /\
     run h' (onProgress h' payload) = h') /\
  (forall payload,
     isMounted h = true ->
     isListening h' watermark_complete = true ->
     result (step h' (EmitComplete payload)) = Some payload /\
     processingState (step h' (EmitComplete payload)) = cancelled /\
     progress (step h' (EmitComplete payload)) = progress h).
Proof.
  intros Hs Hall. cbv zeta.
  pose proof (cancelledRun_steps _ _ trace _ Hall
                (cancel_starts_cancelledRun h Hs)) as (Hc & Hp & Hm & Hst).
  split.
  { unfold step. rewrite Hs. destruct h. reflexivity. }
  split; [exact Hc|]. split; [exact Hp|].
  split; [destruct Hst as [-> | ->]; discriminate|].
  split.
  - intros payload.
    assert (Hon : onProgress (steps (step h CallCancelProcessing) trace) payload
                  = []).
    { unfold onProgress. rewrite Hc, orb_true_r. reflexivity. }
    unfold step at 1. rewrite Hon.
    destruct (isListening _ watermark_progress); split; reflexivity.
  - intros payload Hmounted Hl.
    unfold step at 1 3 5. rewrite Hl. unfold onComplete.
    rewrite Hm, Hmounted, Hc. cbn [negb].
    destruct (steps (step h CallCancelProcessing) trace).
    cbn in *. conjs; try reflexivity. exact Hp.
Qed.

(** The run of the test suite: start, cancel, and then a progress event
    and the terminal event of a fully successful batch. *)
Lemma cancelled_run_of_the_test_suite :
  let started :=
    step registered (CallProcessBatch sampleFiles sampleConfig "/output") in
  let late := {| filePath := "/input/a.jpg"; fileIndex := 0;
                 totalFiles := 2; pstatus := st_complete |} in
  let outcome := {| files := []; total := 2; successful := 2;
                    br_failed := 0 |} in
  processingState started = processing /\
  let h' := steps (step started CallCancelProcessing)
                  [InvokeSettled fulfilled; EmitProgress late] in
  progress h' = [] /\
  processingState (step h' (EmitComplete outcome)) = cancelled /\
  result (step h' (EmitComplete outcome)) = Some outcome.
Proof.
  cbv zeta. split; [reflexivity|].
  destruct (cancelled_run_ignores_progress_and_stays_cancelled
              (step registered
                 (CallProcessBatch sampleFiles sampleConfig "/output"))
              [InvokeSettled fulfilled;
               EmitProgress {| filePath := "/input/a.jpg"; fileIndex := 0;
                               totalFiles := 2; pstatus := st_complete |}]
              eq_refl eq_refl)
    as (_ & _ & Hp & _ & _ & Hdone).
  split; [exact Hp|].
  destruct (Hdone {| files := []; total := 2; successful := 2;
                     br_failed := 0 |} eq_refl eq_refl) as (Hr & Hst & _).
  split; assumption.
Defined.

End CancellationFacts.

(* ================================================================== *)
(** * The processing controller: the progress store                     *)
(* ================================================================== *)

Module ProgressFacts.
Import Types Processor Observation Scenarios.

(** What a step does to the progress map. *)
Lemma progress_step (h : Hook) (s : Step) :
  progress (step h s) =
  match s with
  | EmitProgress payload =>
      if observes h then JS.set (progress h) (filePath payload) payload
      else progress h
  | CallProcessBatch files config outputDir =>
      match validateInputs files config outputDir with
      | Some _ => progress h
      | None => []
      end
  | Unmount => []
  | _ => progress h
  end.
Proof.
  destruct s as [ok|payload|payload|files config outputDir|outcome| |];
    unfold step.
  - destruct h as [st pr re er up uc ic im pl ls ul iv]. cbn [pendingListen].
    destruct pl as [[|]|]; destruct ok; reflexivity.
  - unfold observes.
    destruct (isListening h watermark_progress); [|reflexivity].
    unfold onProgress.
    destruct h as [st pr re er up uc ic im pl ls ul iv].
    cbn [isMounted isCancelledRef andb].
    destruct im, ic; cbn; try reflexivity.
    destruct (pstatus payload); reflexivity.
  - destruct (isListening h watermark_complete); [|reflexivity].
    unfold onComplete.
    destruct h as [st pr re er up uc ic im pl ls ul iv].
    cbn [isMounted isCancelledRef]. destruct im, ic; reflexivity.
  - destruct (validateInputs files config outputDir) as [msg|] eqn:Hv.
    + rewrite (ValidationFacts.processBatch_invalid _ _ _ _ Hv).
      destruct h; reflexivity.
    + rewrite (ValidationFacts.processBatch_valid _ _ _ Hv).
      destruct h; reflexivity.
  - destruct h, outcome; reflexivity.
  - destruct h as [st pr re er up uc ic im pl ls ul iv].
    cbn [processingState]. destruct st; reflexivity.
  - destruct h as [st pr re er up uc ic im pl ls ul iv].
    unfold cleanup. cbn [unlistenProgressRef unlistenCompleteRef].
    destruct up, uc; reflexivity.
Qed.

Lemma lastFor_snoc (path : string) (seen : list ProgressPayload)
    (payload : ProgressPayload) :
  lastFor path (seen ++ [payload]) =
  if String.eqb path (filePath payload) then Some payload
  else lastFor path seen.
Proof.
  unfold lastFor. rewrite rev_app_distr. simpl.
  rewrite (String.eqb_sym path). reflexivity.
Qed.

Lemma storeHolds_empty (h : Hook) : progress h = [] -> storeHolds [] h.
Proof.
  intros Hp. unfold storeHolds. rewrite Hp. conjs.
  - constructor.
  - constructor.
  - intros path. reflexivity.
Qed.

(** Every step keeps the store in line with what has been observed. *)
Lemma storeHolds_step (seen : list ProgressPayload) (h : Hook) (s : Step) :
  storeHolds seen h -> storeHolds (observedAfter h s seen) (step h s).
Proof.
  intros Hinv.
  assert (Hsame : forall h', progress h' = progress h -> storeHolds seen h').
  { intros h' Heq. unfold storeHolds. rewrite Heq. exact Hinv. }
  pose proof (progress_step h s) as Hp.
  destruct s as [ok|payload|payload|files config outputDir|outcome| |];
    cbn [observedAfter]; try (apply Hsame; exact Hp).
  - destruct (observes h); [|apply Hsame; exact Hp].
    destruct Hinv as (Hnd & Hkeys & Hget).
    unfold storeHolds. rewrite Hp. conjs.
    + apply JSFacts.keys_set_NoDup; exact Hnd.
    + apply JSFacts.set_entries; [reflexivity|exact Hkeys].
    + intros path. rewrite JSFacts.get_set, lastFor_snoc, Hget. reflexivity.
  - destruct (validateInputs files config outputDir);
      [apply Hsame; exact Hp|apply storeHolds_empty; exact Hp].
  - apply storeHolds_empty; exact Hp.
Qed.

Lemma storeHolds_steps (trace : list Step) :
  forall seen h,
    storeHolds seen h -> storeHolds (observed h trace seen) (steps h trace).
Proof.
  induction trace as [|s trace IH]; intros seen h Hinv; [exact Hinv|].
  simpl. apply IH. apply storeHolds_step. exact Hinv.
Qed.

(** C6: at every point the hook can reach, the progress map holds at most
    one payload per file path, the one it holds for a path is the last one
    observed for that path in the run, and [progressArray] lists the stored
    payloads in nondecreasing order of [fileIndex]. *)
Theorem progress_store_keeps_last_payload_sorted
    (trace : list Step) (path : string) :
  let h := steps mount trace in
  List.length (storedFor path h) <= 1 /\
  JS.get (progress h) path = lastFor path (observed mount trace []) /\
  (forall payload, JS.get (progress h) path = Some payload ->
     filePath payload = path /\ storedFor path h = [payload]) /\
  Sorted indexLe (progressArray h) /\
  Permutation (progressArray h) (JS.values (progress h)).
Proof.
  cbv zeta.
  destruct (storeHolds_steps trace [] mount (storeHolds_empty mount eq_refl))
    as (Hnd & Hkeys & Hget).
  set (h := steps mount trace) in *.
  pose proof (JSFacts.at_most_one_per_key (progress h) filePath path Hnd Hkeys)
    as Hone.
  change (List.length (storedFor path h) <= 1) in Hone.
  conjs.
  - exact Hone.
  - apply Hget.
  - intros payload Hsome.
    assert (Hin : In payload (storedFor path h) /\ filePath payload = path).
    { unfold storedFor, JS.values. clear Hnd Hget Hone.
      induction (progress h) as [|[k v] m IH]; simpl in *; [discriminate|].
      apply Forall_cons_iff in Hkeys. destruct Hkeys as [Hhead Htail].
      simpl in Hhead.
      destruct (String.eqb path k) eqn:E.
      - apply String.eqb_eq in E. injection Hsome as ->.
        assert (Hk : filePath payload = path) by congruence.
        rewrite Hk, String.eqb_refl. split; [left; reflexivity|reflexivity].
      - destruct (IH Htail Hsome) as [Hin Hk]. split; [|exact Hk].
        destruct (String.eqb (filePath v) path); [right|]; exact Hin. }
    destruct Hin as [Hin Hk]. split; [exact Hk|].
    destruct (storedFor path h) as [|p0 [|p1 rest]]; simpl in *.
    + contradiction.
    + destruct Hin as [->|[]]. reflexivity.
    + lia.
  - apply (JSFacts.sort_sorted fileIndex).
  - apply (JSFacts.sort_perm fileIndex).
Qed.

End ProgressFacts.

(* ================================================================== *)
(** * The processing controller: disposal                               *)
(* ================================================================== *)

Module CleanupFacts.
Import Types Processor Observation Scenarios.

Lemma registered_fullyRegistered : fullyRegistered registered.
Proof. unfold fullyRegistered. conjs; reflexivity. Qed.

Lemma fullyRegistered_step (h : Hook) (s : Step) :
  notUnmount s = true -> fullyRegistered h -> fullyRegistered (step h s).
Proof.
  intros Hs (Hpl & Hup & Huc & Hls & Hul).
  destruct h as [st pr re er up uc ic im pl ls ul iv].
  cbn in Hpl, Hup, Huc, Hls, Hul. subst pl up uc ls ul.
  unfold fullyRegistered.
  destruct s as [ok|payload|payload|files config outputDir|outcome| |];
    try discriminate Hs; unfold step.
  - cbn. conjs; reflexivity.
  - cbn [isListening listeners existsb eventEqb orb].
    unfold onProgress. cbn [isMounted isCancelledRef].
    destruct im, ic; cbn; conjs; try reflexivity;
      destruct (pstatus payload); reflexivity.
  - cbn [isListening listeners existsb eventEqb orb].
    unfold onComplete. cbn [isMounted isCancelledRef].
    destruct im, ic; cbn; conjs; reflexivity.
  - unfold processBatch.
    destruct (JS.truthy (validateInputs files config outputDir));
      cbn; conjs; reflexivity.
  - destruct outcome; cbn; conjs; reflexivity.
  - cbn [processingState]. destruct st; cbn; conjs; reflexivity.
Qed.

Lemma fullyRegistered_steps (trace : list Step) :
  forall h,
    List.forallb notUnmount trace = true ->
    fullyRegistered h -> fullyRegistered (steps h trace).
Proof.
  induction trace as [|s trace IH]; intros h Hall Hinv; [exact Hinv|].
  simpl in Hall. apply andb_true_iff in Hall. destruct Hall as [Hs Hall].
  simpl. apply IH; [exact Hall|]. apply fullyRegistered_step; assumption.
Qed.

(** X27: disposal after both registrations have completed, whatever
    happened in between: each listener is de-registered exactly once, none
    stays live, and a cleanup that ran again would call nothing. *)
Lemma cleanup_after_registration_unlistens_each_once (trace : list Step) :
  List.forallb notUnmount trace = true ->
  let h := step (steps registered trace) Unmount in
  listeners h = [] /\
  unlistenCalls h = [watermark_progress; watermark_complete] /\
  unlistenCount watermark_progress h = 1 /\
  unlistenCount watermark_complete h = 1 /\
  unlistenCalls (step h Unmount) = unlistenCalls h.
Proof.
  intros Hall. cbv zeta.
  destruct (fullyRegistered_steps trace registered Hall
              registered_fullyRegistered) as (Hpl & Hup & Huc & Hls & Hul).
  destruct (steps registered trace) as [st pr re er up uc ic im pl ls ul iv].
  cbn in Hpl, Hup, Huc, Hls, Hul. subst pl up uc ls ul.
  conjs; reflexivity.
Qed.

(** C9 fails on the code.  When disposal comes before the first [listen]
    has settled, the cleanup finds both refs empty and calls nothing; the
    registration then goes on, and both listeners stay registered with no
    call of their [UnlistenFn].  When disposal comes between the two
    [listen] calls, the progress listener is de-registered once and the
    complete listener stays registered. *)
Theorem unmount_during_registration_leaks_listeners :
  let early := steps mount unmountFirst in
  let between := steps mount unmountBetween in
  isMounted early = false /\
  listeners early = [watermark_progress; watermark_complete] /\
  unlistenCalls early = [] /\
  isMounted between = false /\
  listeners between = [watermark_complete] /\
  unlistenCalls between = [watermark_progress].
Proof. cbv zeta. conjs; reflexivity. Qed.

Ltac budget :=
  conjs;
  try (intros ? [= <-]; reflexivity);
  try discriminate; try assumption; try reflexivity; try lia.

Lemma unlistenBudget_step (h : Hook) (s : Step) :
  unlistenBudget h -> unlistenBudget (step h s).
Proof.
  destruct h as [st pr re er up uc ic im pl ls ul iv].
  unfold unlistenBudget, unlistenCount.
  cbn [unlistenProgressRef unlistenCompleteRef pendingListen unlistenCalls].
  intros (Hp & Hc & Hrest).
  destruct s as [ok|payload|payload|files config outputDir|outcome| |];
    unfold step.
  - (* ListenSettled *)
    cbn [pendingListen].
    destruct pl as [[|]|]; destruct ok; cbn.
    + destruct Hrest as (-> & -> & ->). cbn. budget.
    + destruct Hrest as (-> & -> & ->). cbn. budget.
    + destruct Hrest as (-> & H0 & H1). cbn. budget.
    + destruct Hrest as (-> & H0 & H1). cbn. budget.
    + destruct Hrest as (H0 & H1). budget.
    + destruct Hrest as (H0 & H1). budget.
  - (* EmitProgress *)
    destruct (isListening _ watermark_progress);
      [|cbn; conjs; assumption].
    unfold onProgress. cbn [isMounted isCancelledRef].
    destruct im, ic; cbn; conjs; try assumption;
      destruct (pstatus payload); cbn; assumption.
  - (* EmitComplete *)
    destruct (isListening _ watermark_complete);
      [|cbn; conjs; assumption].
    unfold onComplete. cbn [isMounted isCancelledRef].
    destruct im, ic; cbn; conjs; assumption.
  - (* CallProcessBatch *)
    unfold processBatch.
    destruct (JS.truthy (validateInputs files config outputDir));
      cbn; conjs; assumption.
  - (* InvokeSettled *)
    destruct outcome; cbn; conjs; assumption.
  - (* CallCancelProcessing *)
    cbn [processingState]. destruct st; cbn; conjs; assumption.
  - (* Unmount *)
    unfold cleanup. cbn [unlistenProgressRef unlistenCompleteRef].
    destruct up as [u1|]; [rewrite (Hp u1 eq_refl) in *|];
      (destruct uc as [u2|]; [rewrite (Hc u2 eq_refl) in *|]);
      cbn; rewrite ?filter_app, ?length_app; cbn;
      (conjs; try discriminate);
      destruct pl as [[|]|]; cbn in Hrest |- *;
      try (destruct Hrest as (Ha & Hb & Hd); try discriminate Ha;
           try discriminate Hb);
      try (destruct Hrest as (Ha & Hb));
      rewrite ?filter_app, ?length_app in *; cbn in *;
      unfold UnlistenFn in *;
      repeat split; try reflexivity; try assumption; try lia.
Qed.

(** X26: whatever happens, and whenever disposal comes, no [UnlistenFn]
    is called twice. *)
Lemma no_unlisten_called_twice (trace : list Step) (ev : EventName) :
  unlistenCount ev (steps mount trace) <= 1.
Proof.
  assert (Hinv : unlistenBudget (steps mount trace)).
  { assert (Hgen : forall h, unlistenBudget h -> unlistenBudget (steps h trace)).
    { induction trace as [|s trace IH]; intros h Hh; [exact Hh|].
      simpl. apply IH. apply unlistenBudget_step. exact Hh. }
    apply Hgen. unfold unlistenBudget. cbn. conjs; try discriminate; reflexivity. }
  destruct Hinv as (_ & _ & Hrest).
  destruct (pendingListen (steps mount trace)) as [[|]|].
  - destruct Hrest as (_ & _ & Hul). unfold unlistenCount. rewrite Hul.
    cbn. lia.
  - destruct Hrest as (_ & H0 & H1). destruct ev; lia.
  - destruct Hrest as (H0 & H1). destruct ev; lia.
Qed.

(** Once the hook is disposed of, the listeners that were left registered
    stay so: nothing but the cleanup calls an [UnlistenFn]. *)
Lemma leaked_listeners_stay_registered (h : Hook) (s : Step) :
  pendingListen h = None ->
  notUnmount s = true ->
  listeners (step h s) = listeners h /\
  unlistenCalls (step h s) = unlistenCalls h /\
  pendingListen (step h s) = None.
Proof.
  intros Hpl Hs.
  destruct h as [st pr re er up uc ic im pl ls ul iv].
  cbn in Hpl. subst pl.
  destruct s as [ok|payload|payload|files config outputDir|outcome| |];
    try discriminate Hs; unfold step.
  - cbn. conjs; reflexivity.
  - destruct (isListening _ watermark_progress); [|cbn; conjs; reflexivity].
    unfold onProgress. cbn [isMounted isCancelledRef].
    destruct im, ic; cbn; conjs; try reflexivity;
      destruct (pstatus payload); reflexivity.
  - destruct (isListening _ watermark_complete); [|cbn; conjs; reflexivity].
    unfold onComplete. cbn [isMounted isCancelledRef].
    destruct im, ic; cbn; conjs; reflexivity.
  - unfold processBatch.
    destruct (JS.truthy (validateInputs files config outputDir));
      cbn; conjs; reflexivity.
  - destruct outcome; cbn; conjs; reflexivity.
  - cbn [processingState]. destruct st; cbn; conjs; reflexivity.
Qed.

End CleanupFacts.

(* ================================================================== *)
(** * The file selection                                                *)
(* ================================================================== *)

Module SelectionFacts.
Import Types FileSelection.

Lemma existingPathsHas_In (current : list FileItem) (p : string) :
  existingPathsHas current p = true <-> In p (List.map path current).
Proof.
  unfold existingPathsHas. rewrite existsb_exists. split.
  - intros (q & Hq & He). apply String.eqb_eq in He. subst q. exact Hq.
  - intros Hin. exists p. split; [exact Hin|apply String.eqb_refl].
Qed.

Lemma paths_of_new_items (ps : list string) :
  List.map path (List.map toFileItem ps) = ps.
Proof.
  induction ps as [|p ps IH]; simpl; [reflexivity|]. rewrite IH. reflexivity.
Qed.

Lemma selectFiles_paths (current : list FileItem) (result : DialogResult) :
  noResult result = false ->
  List.map path (selectFiles current result)
  = List.map path current
    ++ List.filter (fun p => negb (existingPathsHas current p)) (asArray result).
Proof.
  intros Hr. unfold selectFiles. rewrite Hr.
  rewrite map_app, paths_of_new_items. reflexivity.
Qed.

Lemma selectFiles_covers_chosen (current : list FileItem)
    (result : DialogResult) (p : string) :
  noResult result = false ->
  In p (asArray result) ->
  In p (List.map path (selectFiles current result)).
Proof.
  intros Hr Hp. rewrite (selectFiles_paths _ _ Hr), in_app_iff, filter_In.
  destruct (existingPathsHas current p) eqn:E.
  - left. apply existingPathsHas_In. exact E.
  - right. split; [exact Hp|reflexivity].
Qed.

(** X1: [selectFiles] keeps the files already selected, in place, and
    appends one item per chosen path that was not selected before, each
    built by [toFileItem]; the selected paths become those selected before
    together with the chosen ones; and when neither the selection nor the
    chosen paths repeat a path, the new selection repeats none. *)
Theorem selectFiles_appends_the_new_paths
    (current : list FileItem) (result : DialogResult) :
  let after := selectFiles current result in
  (exists added,
     after = current ++ added /\
     Forall (fun f => f = toFileItem (path f)
                      /\ ~ In (path f) (List.map path current)) added) /\
  (forall p, In p (List.map path after) <->
             In p (List.map path current)
             \/ (noResult result = false /\ In p (asArray result))) /\
  (NoDup (List.map path current) -> NoDup (asArray result) ->
   NoDup (List.map path after)).
Proof.
  cbv zeta. destruct (noResult result) eqn:Hr.
  - unfold selectFiles. rewrite Hr. conjs.
    + exists []. split; [symmetry; apply app_nil_r|constructor].
    + intros p. split; [left; assumption|].
      intros [H|[H _]]; [exact H|discriminate H].
    + intros H _. exact H.
  - conjs.
    + unfold selectFiles. rewrite Hr. eexists. split; [reflexivity|].
      apply Forall_forall. intros f Hf. apply in_map_iff in Hf.
      destruct Hf as (p & <- & Hp). apply filter_In in Hp.
      destruct Hp as [_ Hp]. split; [reflexivity|].
      change (path (toFileItem p)) with p.
      intros Hin. apply existingPathsHas_In in Hin. rewrite Hin in Hp.
      discriminate Hp.
    + intros p. rewrite (selectFiles_paths _ _ Hr), in_app_iff, filter_In.
      split.
      * intros [H|[H _]]; [left; exact H|right; split; [reflexivity|exact H]].
      * intros [H|[_ H]]; [left; exact H|].
        destruct (existingPathsHas current p) eqn:E.
        -- left. apply existingPathsHas_In. exact E.
        -- right. split; [exact H|reflexivity].
    + intros Hcur Hnew. rewrite (selectFiles_paths _ _ Hr).
      apply NoDup_app.
      * exact Hcur.
      * apply NoDup_filter. exact Hnew.
      * intros p Hin Hfil. apply filter_In in Hfil. destruct Hfil as [_ Hp].
        apply existingPathsHas_In in Hin. rewrite Hin in Hp. discriminate Hp.
Qed.

(** X2: choosing the same files a second time adds nothing. *)
Theorem selectFiles_twice_is_once
    (current : list FileItem) (result : DialogResult) :
  selectFiles (selectFiles current result) result = selectFiles current result.
Proof.
  destruct (noResult result) eqn:Hr.
  - unfold selectFiles. rewrite Hr. reflexivity.
  - unfold selectFiles at 1. rewrite Hr.
    assert (Hnone :
      List.filter
        (fun p => negb (existingPathsHas (selectFiles current result) p))
        (asArray result) = []).
    { rewrite <- (filter_ext_in (fun _ => false)).
      - induction (asArray result); simpl; [reflexivity|assumption].
      - intros p Hp. symmetry. apply negb_false_iff.
        apply existingPathsHas_In.
        apply (selectFiles_covers_chosen current result p Hr Hp). }
    rewrite Hnone. simpl. apply app_nil_r.
Qed.


Lemma removeFile_In (current : list FileItem) (p : string) (f : FileItem) :
  In f (removeFile current p) <-> In f current /\ path f <> p.
Proof.
  unfold removeFile. rewrite filter_In, negb_true_iff, String.eqb_neq.
  reflexivity.
Qed.

Lemma removeFile_absent (current : list FileItem) (p : string) :
  ~ In p (List.map path current) -> removeFile current p = current.
Proof.
  intros Hnot. unfold removeFile.
  induction current as [|f current IH]; simpl; [reflexivity|].
  destruct (String.eqb (path f) p) eqn:E.
  - apply String.eqb_eq in E. exfalso. apply Hnot. left. exact E.
  - simpl. rewrite IH; [reflexivity|].
    intros Hin. apply Hnot. right. exact Hin.
Qed.

Lemma removeFile_gone (current : list FileItem) (p : string) :
  ~ In p (List.map path (removeFile current p)).
Proof.
  intros Hin. apply in_map_iff in Hin. destruct Hin as (f & Hf & Hin).
  apply removeFile_In in Hin. destruct Hin as [_ Hne]. exact (Hne Hf).
Qed.

(** X3: [removeFile] removes every item with the given path and nothing
    else, keeping the order of the rest; removing a path that is not
    selected changes nothing; and removing a file right after it was added
    alone, when it was not selected before, gives back the selection as it
    was. *)
Theorem removeFile_removes_exactly_the_path
    (current : list FileItem) (p : string) :
  ~ In p (List.map path (removeFile current p)) /\
  (forall f, In f (removeFile current p) <-> In f current /\ path f <> p) /\
  (forall before after_ f,
     current = before ++ f :: after_ -> path f <> p ->
     removeFile current p = removeFile before p ++ f :: removeFile after_ p) /\
  (~ In p (List.map path current) ->
   removeFile current p = current /\
   removeFile (selectFiles current (onePath p)) p = current).
Proof.
  conjs.
  - apply removeFile_gone.
  - intros f. apply removeFile_In.
  - intros before after_ f -> Hne. unfold removeFile.
    rewrite filter_app. simpl.
    apply String.eqb_neq in Hne. rewrite Hne. reflexivity.
  - intros Hnot. split; [apply removeFile_absent; exact Hnot|].
    unfold selectFiles. destruct (noResult (onePath p)) eqn:Hr.
    + apply removeFile_absent; exact Hnot.
    + cbn [asArray List.filter].
      destruct (existingPathsHas current p) eqn:E.
      * apply existingPathsHas_In in E. contradiction.
      * cbn [negb List.map]. unfold removeFile. rewrite filter_app.
        fold (removeFile current p). rewrite (removeFile_absent _ _ Hnot).
        simpl. change (path (toFileItem p)) with p.
        rewrite String.eqb_refl. simpl. apply app_nil_r.
Qed.

(** X4: the preview file kept by Home is none exactly when nothing is
    selected; otherwise its path is one of the selected paths; it stays
    the same file for as long as that file's path is selected; and when
    the previewed file is removed, the preview moves to the first file
    that is left. *)
Theorem preview_file_is_always_selected
    (selectedFiles : list FileItem) (previous : option FileItem) :
  let current := Home.syncPreviewFile selectedFiles previous in
  (current = None <-> selectedFiles = []) /\
  (forall f, current = Some f -> In (path f) (List.map path selectedFiles)) /\
  (forall prev, previous = Some prev ->
     In (path prev) (List.map path selectedFiles) -> current = Some prev) /\
  (forall prev, previous = Some prev ->
     Home.syncPreviewFile (removeFile selectedFiles (path prev)) previous
     = List.hd_error (removeFile selectedFiles (path prev))).
Proof.
  cbv zeta. unfold Home.syncPreviewFile.
  assert (Hex : forall prev files,
            List.existsb (fun file => String.eqb (path file) (path prev)) files
            = true <-> In (path prev) (List.map path files)).
  { intros prev files. rewrite existsb_exists. split.
    - intros (f & Hf & He). apply String.eqb_eq in He. rewrite <- He.
      apply in_map. exact Hf.
    - intros Hin. apply in_map_iff in Hin. destruct Hin as (f & Hf & Hin).
      exists f. split; [exact Hin|]. apply String.eqb_eq. exact Hf. }
  conjs.
  - destruct selectedFiles as [|first rest];
      [split; reflexivity|].
    destruct previous as [prev|];
      [destruct (List.existsb _ (first :: rest))|];
      split; intros Hd; discriminate Hd.
  - intros f. destruct selectedFiles as [|first rest]; [discriminate|].
    destruct previous as [prev|].
    + destruct (List.existsb _ (first :: rest)) eqn:E; intros [= <-].
      * apply Hex. exact E.
      * left. reflexivity.
    + intros [= <-]. left. reflexivity.
  - intros prev -> Hin. destruct selectedFiles as [|first rest]; [contradiction|].
    apply Hex in Hin. rewrite Hin. reflexivity.
  - intros prev ->.
    pose proof (removeFile_gone selectedFiles (path prev))
      as Hgone.
    destruct (removeFile selectedFiles (path prev)) as [|first rest] eqn:Hrm;
      [reflexivity|].
    destruct (List.existsb _ (first :: rest)) eqn:E; [|reflexivity].
    apply Hex in E. contradiction.
Qed.

End SelectionFacts.

(* ================================================================== *)
(** * The configuration store: presets, loading and restarts            *)
(* ================================================================== *)

Module PersistenceFacts.
Import Types WatermarkStore.

Lemma updateConfig_persists (st : Store) (partial : PartialConfig) :
  stored_watermarkConfig (updateConfig st partial)
  = Some (config (updateConfig st partial)).
Proof. reflexivity. Qed.

Lemma updateConfig_optional_keys (st : Store) (partial : PartialConfig) :
  imageScale (config (updateConfig st partial))
    = overOpt (imageScale (config st)) (p_imageScale partial) /\
  positionMode (config (updateConfig st partial))
    = overOpt (positionMode (config st)) (p_positionMode partial).
Proof.
  unfold updateConfig. cbn [config].
  destruct (p_customPosition partial) as [pos|]; [|split; reflexivity].
  destruct (positionMode (spread (config st) partial)) as [[|]|];
    try (split; reflexivity).
  destruct (outOfRange pos); split; reflexivity.
Qed.

Lemma inSync_applyOp (st : Store) (op : StoreOp) :
  inSync st ->
  inSync (applyOp st op) /\
  stored_watermarkConfig (applyOp st op) = Some (config (applyOp st op)).
Proof.
  intros (Hid & Hscale & Hmode). destruct op as [partial|presetId presetConfig].
  - split; [|apply updateConfig_persists].
    destruct (updateConfig_optional_keys st partial) as [Hs Hm].
    unfold inSync. cbn [applyOp]. rewrite Hs, Hm. conjs.
    + unfold updateConfig. cbn [stored_activePresetId activePresetId].
      destruct (isSubstantialChange partial && JS.truthy (activePresetId st));
        [reflexivity|exact Hid].
    + destruct (p_imageScale partial); [discriminate|exact Hscale].
    + destruct (p_positionMode partial); [discriminate|exact Hmode].
  - split; [|reflexivity].
    unfold inSync. cbn. conjs; try reflexivity; try discriminate.
    destruct (imageScale presetConfig); discriminate.
Qed.

Lemma inSync_applyOps (ops : list StoreOp) :
  forall st, inSync st -> inSync (applyOps st ops).
Proof.
  induction ops as [|op ops IH]; intros st Hst; [exact Hst|].
  simpl. apply IH. apply inSync_applyOp. exact Hst.
Qed.

Lemma applyOps_persists (ops : list StoreOp) :
  forall st op,
    inSync st ->
    stored_watermarkConfig (applyOps st (op :: ops))
    = Some (config (applyOps st (op :: ops))).
Proof.
  induction ops as [|op' ops IH]; intros st op Hst.
  - simpl. apply inSync_applyOp. exact Hst.
  - change (applyOps st (op :: op' :: ops))
      with (applyOps (applyOp st op) (op' :: ops)).
    apply IH. apply inSync_applyOp. exact Hst.
Qed.

(** Spreading a configuration whose optional keys are set over the
    defaults gives the configuration back. *)
Lemma defaults_under_complete (c : WatermarkConfig) :
  imageScale c <> None -> positionMode c <> None ->
  spread DEFAULT_WATERMARK_CONFIG (migrateConfig (asPartial c)) = c.
Proof.
  intros Hs Hm. destruct c as [wt tx ip po op tc fs ff sc pm cp].
  cbn in Hs, Hm. destruct sc; [|contradiction]. destruct pm; [|contradiction].
  destruct cp; reflexivity.
Qed.

(** X5: a restart restores the session.  From a state in which the store
    and the hook agree, after any one or more updates and preset
    applications, the next session's load gives back exactly the last
    configuration and the active preset (none when it was the empty
    string), ends loading, and leaves the persistent store as it was. *)
Theorem restart_restores_last_configuration
    (st : Store) (op : StoreOp) (ops : list StoreOp) :
  inSync st ->
  let last := applyOps st (op :: ops) in
  let next := restart last in
  config (store next) = config last /\
  activePresetId (store next)
    = (if JS.truthy (activePresetId last) then activePresetId last else None) /\
  isLoading next = false /\
  stored_watermarkConfig (store next) = stored_watermarkConfig last /\
  stored_activePresetId (store next) = stored_activePresetId last.
Proof.
  intros Hst. cbv zeta.
  pose proof (inSync_applyOps (op :: ops) st Hst) as (Hid & Hscale & Hmode).
  pose proof (applyOps_persists ops st op Hst) as Hsaved.
  set (last := applyOps st (op :: ops)) in *.
  unfold restart, loadConfig, firstRender, loadConfig_try.
  cbn [store isLoading readsReject quietEnv mountedAfterReads mountedAtEnd
       stored_watermarkConfig stored_activePresetId].
  rewrite Hsaved, Hid. cbn [option_map].
  rewrite (defaults_under_complete _ Hscale Hmode).
  rewrite andb_true_r.
  destruct (JS.truthy (activePresetId last)); cbn; conjs; reflexivity.
Qed.

(** The first session: the defaults, a preset, then the text is edited. *)
Lemma restart_restores_an_edited_preset :
  let first := store (firstRender None None) in
  inSync first /\
  let last :=
    applyOps first
      [ApplyPreset "bold" DEFAULT_WATERMARK_CONFIG;
       UpdateConfig (withPositionMode emptyPartial custom)] in
  config (store (restart last)) = config last /\
  activePresetId (store (restart last)) = Some "bold".
Proof.
  cbv zeta.
  assert (Hsync : inSync (store (firstRender None None))).
  { unfold inSync. cbn. conjs; [reflexivity|discriminate|discriminate]. }
  split; [exact Hsync|].
  destruct (restart_restores_last_configuration
              (store (firstRender None None))
              (ApplyPreset "bold" DEFAULT_WATERMARK_CONFIG)
              [UpdateConfig (withPositionMode emptyPartial custom)] Hsync)
    as (Hc & Hid & _).
  split; [exact Hc|exact Hid].
Defined.

(** X6: the life of an active preset.  Applying a preset leaves the
    configuration in preset mode with the preset active, in the hook and
    in the store; an update of the position mode or the custom position
    alone keeps it active; any other update clears it, in the hook and in
    the store. *)
Theorem active_preset_survives_only_repositioning
    (st : Store) (presetId : string) (presetConfig : WatermarkConfig)
    (partial : PartialConfig) :
  JS.falsy presetId = false ->
  let applied := applyPreset st presetId presetConfig in
  let updated := updateConfig applied partial in
  positionMode (config applied) = Some preset /\
  activePresetId applied = Some presetId /\
  stored_activePresetId applied = Some presetId /\
  stored_watermarkConfig applied = Some (config applied) /\
  (isSubstantialChange partial = false ->
     activePresetId updated = Some presetId /\
     stored_activePresetId updated = Some presetId) /\
  (isSubstantialChange partial = true ->
     activePresetId updated = None /\
     stored_activePresetId updated = None).
Proof.
  intros Hid. cbv zeta. unfold updateConfig, applyPreset.
  cbn [activePresetId stored_activePresetId config stored_watermarkConfig
       JS.truthy].
  rewrite Hid. cbn [negb]. rewrite andb_true_r. conjs; try reflexivity.
  - intros ->. split; reflexivity.
  - intros ->. split; reflexivity.
Qed.

Lemma active_preset_cleared_by_a_text_edit :
  JS.falsy "bold" = false /\
  let st := store (firstRender None None) in
  let edit := {| p_watermarkType := None; p_text := Some "Mine";
                 p_imagePath := None; p_position := None; p_opacity := None;
                 p_textColor := None; p_fontSize := None;
                 p_fontFamily := None; p_imageScale := None;
                 p_positionMode := None; p_customPosition := None |} in
  activePresetId
    (updateConfig (applyPreset st "bold" DEFAULT_WATERMARK_CONFIG) edit)
  = None.
Proof.
  split; [reflexivity|]. cbv zeta.
  apply (active_preset_survives_only_repositioning
           (store (firstRender None None)) "bold" DEFAULT_WATERMARK_CONFIG
           {| p_watermarkType := None; p_text := Some "Mine";
              p_imagePath := None; p_position := None; p_opacity := None;
              p_textColor := None; p_fontSize := None;
              p_fontFamily := None; p_imageScale := None;
              p_positionMode := None; p_customPosition := None |}
           eq_refl).
  reflexivity.
Defined.

(** X7: the load order.  When the reads succeed and the hook is still
    mounted, a saved configuration wins: it is spread over the defaults,
    in preset mode if it carries no position mode, and neither the bundled
    preset nor the store is touched.  With nothing saved, the bundled
    preset is used in preset mode, made the active preset and persisted;
    without it, the hard-coded defaults are used.  In every one of these
    cases the configuration ends with a position mode, and whatever
    happens loading ends as long as the hook is mounted at the end. *)
Theorem loadConfig_follows_the_load_order
    (saved : option WatermarkConfig) (savedPresetId : option string)
    (env : LoadEnv) :
  let loaded := loadConfig (firstRender saved savedPresetId) env in
  (mountedAtEnd env = true -> isLoading loaded = false) /\
  (readsReject env = false -> mountedAfterReads env = true ->
     positionMode (config (store loaded)) <> None /\
     (forall c, saved = Some c ->
        config (store loaded)
          = spread DEFAULT_WATERMARK_CONFIG (migrateConfig (asPartial c)) /\
        (positionMode c = None ->
           positionMode (config (store loaded)) = Some preset) /\
        (forall m, positionMode c = Some m ->
           positionMode (config (store loaded)) = Some m) /\
        text (config (store loaded)) = text c /\
        stored_watermarkConfig (store loaded) = saved /\
        stored_activePresetId (store loaded) = savedPresetId) /\
     (saved = None ->
        (forall dp, defaultPreset env = Some dp ->
           config (store loaded) = defaultsWithPreset dp /\
           (writeConfigRejects env = false ->
              stored_watermarkConfig (store loaded)
                = Some (defaultsWithPreset dp) /\
              activePresetId (store loaded) = Some "default" /\
              (writePresetIdRejects env = false ->
                 stored_activePresetId (store loaded) = Some "default"))) /\
        (defaultPreset env = None ->
           config (store loaded) = DEFAULT_WATERMARK_CONFIG /\
           stored_watermarkConfig (store loaded) = None))) /\
  (readsReject env = true \/ mountedAfterReads env = false ->
     store loaded = store (firstRender saved savedPresetId)).
Proof.
  cbv zeta. unfold loadConfig, firstRender, loadConfig_try.
  cbn [store isLoading stored_watermarkConfig stored_activePresetId].
  conjs.
  - intros ->. reflexivity.
  - intros -> ->. rewrite andb_true_r. conjs.
    + destruct saved as [c|]; cbn [option_map].
      * destruct (JS.truthy savedPresetId); cbn [setConfig config].
        -- destruct c as [wt tx ip po op tc fs ff sc [pm|] cp]; cbn; discriminate.
        -- destruct c as [wt tx ip po op tc fs ff sc [pm|] cp]; cbn; discriminate.
      * destruct (defaultPreset env) as [dp|].
        -- destruct (writeConfigRejects env), (writePresetIdRejects env),
             (JS.truthy savedPresetId); cbn; discriminate.
        -- destruct (JS.truthy savedPresetId); cbn; discriminate.
    + intros c ->. cbn [option_map].
      destruct (JS.truthy savedPresetId); cbn [setConfig config
        setActivePresetId stored_watermarkConfig stored_activePresetId];
        (conjs; try reflexivity);
        destruct c as [wt tx ip po op tc fs ff sc [pm|] cp]; cbn;
        try reflexivity; try discriminate;
        try (intros m [= <-]; reflexivity).
    + intros ->. cbn [option_map]. split.
      * intros dp ->.
        destruct (writeConfigRejects env), (writePresetIdRejects env),
          (JS.truthy savedPresetId); cbn; conjs; try reflexivity;
          try discriminate; intros _; conjs; try reflexivity;
          try discriminate; intros _; reflexivity.
      * intros ->. destruct (JS.truthy savedPresetId); cbn; split; reflexivity.
  - intros [-> | ->]; [reflexivity|].
    destruct (readsReject env); [reflexivity|].
    rewrite andb_false_r. destruct (option_map _ _); reflexivity.
Qed.

End PersistenceFacts.

(* ================================================================== *)
(** * The processing controller: what the views can rely on             *)
(* ================================================================== *)

Module ConductFacts.
Import Types Processor Observation Conduct.

Lemma invokeCalls_step (h : Hook) (s : Step) :
  invokeCalls (step h s) = invokeCalls h ++ validBatches [s].
Proof.
  destruct s as [ok|payload|payload|files config outputDir|outcome| |];
    unfold step; cbn [validBatches].
  - destruct h as [st pr re er up uc ic im pl ls ul iv]. cbn [pendingListen].
    destruct pl as [[|]|]; destruct ok; cbn; rewrite app_nil_r; reflexivity.
  - rewrite app_nil_r.
    destruct (isListening h watermark_progress); [|reflexivity].
    unfold onProgress.
    destruct (negb (isMounted h) || isCancelledRef h); [reflexivity|].
    destruct h. destruct (pstatus payload); reflexivity.
  - rewrite app_nil_r.
    destruct (isListening h watermark_complete); [|reflexivity].
    unfold onComplete.
    destruct (negb (isMounted h)); [reflexivity|].
    destruct h as [st pr re er up uc ic im pl ls ul iv].
    cbn [isCancelledRef]. destruct ic; reflexivity.
  - destruct (validateInputs files config outputDir) as [msg|] eqn:Hv.
    + rewrite (ValidationFacts.processBatch_invalid _ _ _ _ Hv), app_nil_r.
      destruct h; reflexivity.
    + rewrite (ValidationFacts.processBatch_valid _ _ _ Hv).
      destruct h; reflexivity.
  - rewrite app_nil_r. destruct h, outcome; reflexivity.
  - rewrite app_nil_r. destruct h as [st pr re er up uc ic im pl ls ul iv].
    cbn [processingState]. destruct st; reflexivity.
  - rewrite app_nil_r. destruct h as [st pr re er up uc ic im pl ls ul iv].
    unfold cleanup. cbn [unlistenProgressRef unlistenCompleteRef].
    destruct up, uc; reflexivity.
Qed.

Lemma validBatches_cons (s : Step) (trace : list Step) :
  validBatches (s :: trace) = validBatches [s] ++ validBatches trace.
Proof.
  destruct s as [ | | |fs config outputDir| | |]; try reflexivity.
  cbn [validBatches].
  destruct (validateInputs fs config outputDir); reflexivity.
Qed.

(** X8: the Orchestrator is invoked once for every call of [processBatch]
    that passes validation, with that call's arguments and in the order of
    the calls, and by nothing else: not by a call that fails validation,
    not by an event, a cancellation, a settled promise or disposal. *)
Theorem invoke_only_for_valid_batches (h : Hook) (trace : list Step) :
  invokeCalls (steps h trace) = invokeCalls h ++ validBatches trace.
Proof.
  revert h. induction trace as [|s trace IH]; intros h.
  - simpl. symmetry. apply app_nil_r.
  - simpl steps. rewrite IH, invokeCalls_step, (validBatches_cons s trace).
    rewrite <- app_assoc. reflexivity.
Qed.

Lemma consistent_step (h : Hook) (s : Step) :
  consistent h -> consistent (step h s).
Proof.
  intros (Hidle & Hproc & Herr & Hcan & Hcom).
  destruct h as [st pr re er up uc ic im pl ls ul iv].
  unfold consistent in *.
  cbn [processingState result error isCancelledRef isMounted] in *.
  destruct s as [ok|payload|payload|files config outputDir|outcome| |];
    unfold step.
  - cbn [pendingListen].
    destruct pl as [[|]|]; destruct ok; cbn; conjs; assumption.
  - destruct (isListening _ watermark_progress); [|cbn; conjs; assumption].
    unfold onProgress. cbn [isMounted isCancelledRef].
    destruct im, ic; cbn; try (conjs; assumption);
      destruct (pstatus payload); cbn; conjs; assumption.
  - destruct (isListening _ watermark_complete); [|cbn; conjs; assumption].
    unfold onComplete. cbn [isMounted isCancelledRef].
    destruct im; cbn [negb]; [|cbn; conjs; assumption].
    destruct ic; cbn; conjs; try discriminate; try reflexivity.
    intros _. split; [reflexivity|]. intros _. discriminate.
  - destruct (validateInputs files config outputDir) as [msg|] eqn:Hv.
    + rewrite (ValidationFacts.processBatch_invalid _ _ _ _ Hv). cbn.
      conjs; try discriminate.
    + rewrite (ValidationFacts.processBatch_valid _ _ _ Hv). cbn.
      conjs; try discriminate. intros _. conjs; reflexivity.
  - destruct outcome; cbn; conjs; try assumption; try discriminate.
  - cbn [processingState].
    destruct st; cbn; conjs; try assumption; try discriminate.
    intros _. reflexivity.
  - unfold cleanup. cbn [unlistenProgressRef unlistenCompleteRef].
    destruct up, uc; cbn; conjs; try assumption;
      try (intros H; destruct (Hidle H) as [_ He]; split; [reflexivity|exact He]);
      try (intros H; destruct (Hproc H) as (_ & He & Hc);
           conjs; [reflexivity|exact He|exact Hc]);
      try (intros H; destruct (Hcom H) as [Hc _]; split;
           [exact Hc|intros Hd; discriminate Hd]).
Qed.

(** X9: at every point the hook can reach, its cells fit its state: in
    state idle or processing there is neither a result nor an error, and
    in state processing the cancellation flag is clear; in state error
    there is an error message; state cancelled comes with the flag set;
    and state complete comes with the flag clear and, while the hook is
    mounted, with a result. *)
Theorem hook_state_is_consistent (trace : list Step) :
  consistent (steps mount trace).
Proof.
  assert (Hgen : forall h, consistent h -> consistent (steps h trace)).
  { induction trace as [|s trace IH]; intros h Hh; [exact Hh|].
    simpl. apply IH. apply consistent_step. exact Hh. }
  apply Hgen. unfold consistent. cbn.
  conjs; try discriminate. intros _. split; reflexivity.
Qed.

Lemma emit_when_unmounted (h : Hook) (s : Step) :
  isMounted h = false -> isEmit s = true -> step h s = h.
Proof.
  intros Hm Hs. destruct s; try discriminate Hs; unfold step.
  - destruct (isListening h watermark_progress); [|reflexivity].
    unfold onProgress. rewrite Hm. reflexivity.
  - destruct (isListening h watermark_complete); [|reflexivity].
    unfold onComplete. rewrite Hm. reflexivity.
Qed.

(** X10: a hook that has been disposed of ignores the channel: whatever
    progress and complete events still reach its listeners, nothing of the
    hook changes. *)
Theorem disposed_hook_ignores_events (h : Hook) (events : list Step) :
  isMounted h = false ->
  List.forallb isEmit events = true ->
  steps h events = h.
Proof.
  intros Hm. induction events as [|s events IH]; intros Hall; [reflexivity|].
  simpl in Hall. apply andb_true_iff in Hall. destruct Hall as [Hs Hall].
  simpl. rewrite (emit_when_unmounted h s Hm Hs). apply IH. exact Hall.
Qed.

(** Disposal during registration leaves both listeners registered; the
    events they receive are ignored. *)
Lemma disposed_hook_ignores_events_of_leaked_listeners :
  let h := steps mount unmountFirst in
  let payload := {| filePath := "/input/a.jpg"; fileIndex := 0;
                    totalFiles := 1; pstatus := st_complete |} in
  let outcome := {| files := []; total := 1; successful := 1;
                    br_failed := 0 |} in
  isMounted h = false /\
  isListening h watermark_progress = true /\
  steps h [EmitProgress payload; EmitComplete outcome] = h.
Proof.
  cbv zeta. split; [reflexivity|]. split; [reflexivity|].
  apply (disposed_hook_ignores_events (steps mount unmountFirst)); reflexivity.
Defined.

End ConductFacts.

(* ================================================================== *)
(** * The processing panel against the controller                       *)
(* ================================================================== *)

Module PanelFacts.
Import Types Processor Observation ProcessingPanel Scenarios.

Lemma falsy_eqb_empty (s : string) : JS.falsy s = String.eqb s "".
Proof. destruct s; reflexivity. Qed.

Lemma complete_iff_valid files panel config :
  validationsComplete files panel config = true <->
  validateInputs files config (outputDir panel) = None.
Proof.
  unfold validationsComplete, validateInputs, isWatermarkValid.
  destruct files as [|f files]; [split; discriminate|].
  cbn [List.length Nat.ltb Nat.leb andb].
  destruct (JS.falsy (outputDir panel)); [split; discriminate|].
  cbn [negb andb]. rewrite <- falsy_eqb_empty.
  destruct (watermarkType config).
  - destruct (JS.falsy (JS.trim (text config))); split;
      try discriminate; reflexivity.
  - destruct (JS.truthy (imagePath config)); split;
      try discriminate; reflexivity.
Qed.

(** X11: the panel's readiness agrees with the controller's validation.
    [validationsComplete] holds exactly when [validateInputs] accepts the
    same files, configuration and directory; the readiness percentage is
    100 exactly then and lies between 0 and 100 otherwise; and when the
    panel's own [handleProcess] refuses, the message it shows is the one
    the controller would have reported. *)
Theorem panel_readiness_agrees_with_validation
    (files : list FileItem) (panel : Panel) (config : WatermarkConfig) :
  (validationsComplete files panel config = true <->
   validateInputs files config (outputDir panel) = None) /\
  (readinessPercentage files panel config = 100%Z <->
   validationsComplete files panel config = true) /\
  (0 <= readinessPercentage files panel config <= 100)%Z /\
  (snd (handleProcess files panel) = None ->
   errorMessage (fst (handleProcess files panel))
   = validateInputs files config (outputDir panel)).
Proof.
  split; [apply complete_iff_valid|].
  unfold readinessPercentage, validationsComplete, handleProcess,
    validateInputs.
  destruct files as [|f files]; cbn [List.length Nat.ltb Nat.leb andb];
    destruct (JS.falsy (outputDir panel)); cbn [negb andb fst snd];
    destruct (isWatermarkValid config);
    conjs; try lia; try reflexivity; try discriminate;
    try (split; [intros H; lia | discriminate]);
    try (split; [discriminate | intros H; lia]).
Qed.

(** X12: an enabled Process button starts a batch.  When the button is
    not disabled, the panel's [handleProcess] clears its message and
    forwards its directory, and the controller, called by Home with the
    selected files and the configuration, passes validation: the state
    becomes processing and the Orchestrator is invoked with exactly these
    arguments. *)
Theorem enabled_process_button_starts_a_batch
    (h : Hook) (files : list FileItem) (panel : Panel)
    (config : WatermarkConfig) :
  processDisabled files panel config (processingState h) = false ->
  handleProcess files panel
    = ({| outputDir := outputDir panel; errorMessage := None |},
       Some (outputDir panel)) /\
  let h' := step h (Home.handleProcess files config (outputDir panel)) in
  processingState h <> processing /\
  processingState h' = processing /\
  error h' = None /\
  invokeCalls h' = invokeCalls h ++ [argsOf files config (outputDir panel)].
Proof.
  unfold processDisabled. intros Hd. apply orb_false_iff in Hd.
  destruct Hd as [Hc Hs]. apply negb_false_iff in Hc.
  pose proof (proj1 (complete_iff_valid files panel config) Hc) as Hv.
  split.
  - unfold validationsComplete in Hc. unfold handleProcess.
    destruct files as [|f files]; [discriminate Hc|].
    destruct (JS.falsy (outputDir panel)); [discriminate Hc|]. reflexivity.
  - cbv zeta. unfold Home.handleProcess.
    rewrite (ValidationFacts.step_valid _ _ _ _ Hv).
    split; [intros Hp; rewrite Hp in Hs; discriminate Hs|].
    destruct h. cbn. conjs; reflexivity.
Qed.

Lemma enabled_process_button_with_the_test_inputs :
  let panel := {| outputDir := "/output"; errorMessage := None |} in
  processDisabled sampleFiles panel sampleConfig (processingState registered)
    = false /\
  invokeCalls (step registered
                 (Home.handleProcess sampleFiles sampleConfig "/output"))
  = [argsOf sampleFiles sampleConfig "/output"].
Proof.
  cbv zeta. split; [reflexivity|].
  destruct (enabled_process_button_starts_a_batch registered sampleFiles
              {| outputDir := "/output"; errorMessage := None |}
              sampleConfig eq_refl) as (_ & _ & _ & _ & Hi).
  exact Hi.
Defined.

End PanelFacts.

(* ================================================================== *)
(** * The progress display                                              *)
(* ================================================================== *)

Module DisplayFacts.
Import Types Processor Observation ProgressDisplay.

Section SortedInput.
Context {A : Type} (key : A -> Z).
Let le (a b : A) : Prop := (key a <= key b)%Z.

Lemma insertSorted_after_smaller (x : A) (acc : list A) :
  Forall (fun y => le y x) acc -> JS.insertSorted key x acc = acc ++ [x].
Proof.
  induction acc as [|y acc IH]; simpl; intros Hall; [reflexivity|].
  apply Forall_cons_iff in Hall. destruct Hall as [Hy Hall].
  destruct (key x - key y <? 0)%Z eqn:E.
  - apply Z.ltb_lt in E. unfold le in Hy. lia.
  - rewrite (IH Hall). reflexivity.
Qed.

Lemma smaller_before (acc : list A) (x : A) (xs : list A) :
  StronglySorted le (acc ++ x :: xs) -> Forall (fun y => le y x) acc.
Proof.
  induction acc as [|a acc IH]; simpl; intros Hs; [constructor|].
  apply StronglySorted_inv in Hs. destruct Hs as [Hs Hall].
  constructor; [|apply IH; exact Hs].
  apply Forall_app in Hall. destruct Hall as [_ Hall].
  apply Forall_cons_iff in Hall. apply Hall.
Qed.

Lemma sort_from_sorted (xs : list A) :
  forall acc,
    StronglySorted le (acc ++ xs) ->
    List.fold_left (fun a x => JS.insertSorted key x a) xs acc = acc ++ xs.
Proof.
  induction xs as [|x xs IH]; intros acc Hs; simpl.
  - symmetry. apply app_nil_r.
  - rewrite (insertSorted_after_smaller x acc (smaller_before acc x xs Hs)).
    rewrite IH; rewrite <- app_assoc; [reflexivity|exact Hs].
Qed.

(** Sorting a list that is in order leaves it as it is. *)
Lemma sort_of_sorted (xs : list A) : Sorted le xs -> JS.sort key xs = xs.
Proof.
  intros Hs. unfold JS.sort. apply (sort_from_sorted xs []).
  apply Sorted_StronglySorted; [|exact Hs].
  intros a b c Hab Hbc. unfold le in *. lia.
Qed.
End SortedInput.

(** X13: the table of the progress display shows the hook's
    [progressArray] in the order the hook gives it: sorting it again by
    [fileIndex] changes nothing.  For any input the rows are a permutation
    of it in nondecreasing order of [fileIndex]. *)
Theorem display_rows_keep_the_hook_order
    (h : Hook) (payloads : list ProgressPayload) :
  rows (progressArray h) = progressArray h /\
  Sorted indexLe (rows payloads) /\
  Permutation (rows payloads) payloads.
Proof.
  conjs.
  - unfold rows. apply (sort_of_sorted fileIndex).
    apply (JSFacts.sort_sorted fileIndex).
  - apply (JSFacts.sort_sorted fileIndex).
  - apply (JSFacts.sort_perm fileIndex).
Qed.




End DisplayFacts.

(* ================================================================== *)
(** * The results summary: file names and folders                       *)
(* ================================================================== *)

Module SummaryFacts.
Import Types FileSelection ResultsSummary Conduct.

Lemma split_nonempty (s : string) : JS.split isSlash s <> [].
Proof.
  destruct s as [|c s]; simpl; [discriminate|].
  destruct (isSlash c); [discriminate|].
  destruct (JS.split isSlash s); discriminate.
Qed.

Lemma split_plain (s : string) :
  plainName s = true -> JS.split isSlash s = [s].
Proof.
  unfold plainName. induction s as [|c s IH]; simpl; [reflexivity|].
  intros H. apply andb_true_iff in H. destruct H as [Hc Hs].
  apply negb_true_iff in Hc. rewrite Hc, (IH Hs). reflexivity.
Qed.

(** Splitting at a separator: the segments before it, then those after. *)
Lemma split_at_separator (a : string) (c : ascii) (b : string) :
  isSlash c = true ->
  JS.split isSlash (a ++ String c b) = JS.split isSlash a ++ JS.split isSlash b.
Proof.
  intros Hc. induction a as [|d a IH]; simpl.
  - rewrite Hc. reflexivity.
  - destruct (isSlash d); [rewrite IH; reflexivity|].
    rewrite IH. pose proof (split_nonempty a) as Hne.
    destruct (JS.split isSlash a); [contradiction|reflexivity].
Qed.

Lemma join_cons_char (sep : string) (c : ascii) (seg : string)
    (segs : list string) :
  JS.join sep (String c seg :: segs) = String c (JS.join sep (seg :: segs)).
Proof. destruct segs; reflexivity. Qed.

(** Joining the segments of a path with backslashes gives the path with
    every separator a backslash. *)
Lemma join_split_backslashed (s : string) :
  JS.join "\" (JS.split isSlash s) = backslashed s.
Proof.
  induction s as [|c s IH]; simpl; [reflexivity|].
  destruct (isSlash c) eqn:Hc.
  - pose proof (split_nonempty s) as Hne.
    destruct (JS.split isSlash s) as [|seg segs]; [contradiction|].
    rewrite <- IH. reflexivity.
  - pose proof (split_nonempty s) as Hne.
    destruct (JS.split isSlash s) as [|seg segs]; [contradiction|].
    rewrite join_cons_char, IH. reflexivity.
Qed.

Lemma backslashed_no_slash (s : string) :
  JS.allChars (fun c => negb (Ascii.eqb c "/")) (backslashed s) = true.
Proof.
  induction s as [|c s IH]; simpl; [reflexivity|]. rewrite IH, andb_true_r.
  unfold isSlash. destruct (Ascii.eqb c "/") eqn:E; [reflexivity|].
  simpl. destruct (Ascii.eqb c "\"); [reflexivity|]. rewrite E. reflexivity.
Qed.

Lemma backslashed_fixed (s : string) :
  JS.allChars (fun c => negb (Ascii.eqb c "/")) s = true -> backslashed s = s.
Proof.
  induction s as [|c s IH]; simpl; [reflexivity|].
  intros H. apply andb_true_iff in H. destruct H as [Hc Hs].
  apply negb_true_iff in Hc. rewrite (IH Hs). unfold isSlash. rewrite Hc.
  simpl. destruct (Ascii.eqb c "\") eqn:E; [|reflexivity].
  apply Ascii.eqb_eq in E. subst c. reflexivity.
Qed.

(** When joining with backslashes gives nothing, so does joining with
    slashes: the fallback of [getDirectoryPath] never shows. *)
Lemma join_empty_either_way (segments : list string) :
  JS.falsy (JS.join "\" segments) = true -> JS.join "/" segments = "".
Proof.
  destruct segments as [|x [|y rest]]; simpl.
  - reflexivity.
  - destruct x; [reflexivity|discriminate].
  - destruct x; discriminate.
Qed.

Lemma getDirectoryPath_joins (filePath : string) :
  getDirectoryPath filePath
  = JS.join "\" (pop (JS.split isSlash filePath)).
Proof.
  unfold getDirectoryPath, JS.orElse.
  destruct (JS.falsy (JS.join "\" (pop (JS.split isSlash filePath)))) eqn:E;
    [|reflexivity].
  rewrite (join_empty_either_way _ E).
  destruct (JS.join "\" (pop (JS.split isSlash filePath)));
    [reflexivity|discriminate E].
Qed.

(** X15: [getDirectoryPath] gives the directory of a file path with
    backslashes for separators, whichever separators the path was written
    with: for a path [dir], a separator and a file name it is [dir] with
    every slash turned into a backslash, so it is [dir] itself when [dir]
    has no slash, and it never contains a slash; a path without any
    separator has the empty directory. *)
Theorem getDirectoryPath_is_the_backslashed_directory
    (dir : string) (sep : ascii) (file : string) :
  isSlash sep = true ->
  plainName file = true ->
  getDirectoryPath (dir ++ String sep file) = backslashed dir /\
  JS.allChars (fun c => negb (Ascii.eqb c "/"))
              (getDirectoryPath (dir ++ String sep file)) = true /\
  (JS.allChars (fun c => negb (Ascii.eqb c "/")) dir = true ->
   getDirectoryPath (dir ++ String sep file) = dir) /\
  getDirectoryPath file = "".
Proof.
  intros Hsep Hfile.
  assert (Hdir : getDirectoryPath (dir ++ String sep file) = backslashed dir).
  { rewrite getDirectoryPath_joins, (split_at_separator _ _ _ Hsep),
      (split_plain _ Hfile).
    unfold pop. rewrite removelast_last. apply join_split_backslashed. }
  conjs.
  - exact Hdir.
  - rewrite Hdir. apply backslashed_no_slash.
  - intros Hplain. rewrite Hdir. apply backslashed_fixed. exact Hplain.
  - rewrite getDirectoryPath_joins, (split_plain _ Hfile). reflexivity.
Qed.

Lemma getDirectoryPath_of_an_output_file :
  isSlash "/" = true /\ plainName "a_watermarked.jpg" = true /\
  getDirectoryPath "C:\out\a_watermarked.jpg" = "C:\out" /\
  getDirectoryPath "/out/photos/a_watermarked.jpg" = "\out\photos".
Proof.
  split; [reflexivity|]. split; [reflexivity|]. split.
  - destruct (getDirectoryPath_is_the_backslashed_directory
                "C:\out" "\" "a_watermarked.jpg" eq_refl eq_refl)
      as (_ & _ & H & _).
    apply H. reflexivity.
  - apply (getDirectoryPath_is_the_backslashed_directory
             "/out/photos" "/" "a_watermarked.jpg" eq_refl eq_refl).
Defined.

Lemma last_segment (dir : string) (sep : ascii) (file : string) :
  isSlash sep = true -> plainName file = true ->
  JS.lastOr (JS.split isSlash (dir ++ String sep file)) "" = file.
Proof.
  intros Hsep Hfile. unfold JS.lastOr.
  rewrite (split_at_separator _ _ _ Hsep), (split_plain _ Hfile).
  apply last_last.
Qed.

(** X16: [getFilename] gives what follows the last separator, and the
    whole path when nothing follows it (or when there is no separator): it
    is empty only for the empty path.  Where the name that [toFileItem]
    gives a file is not empty, [getFilename] shows that name. *)
Theorem getFilename_is_the_last_segment (p : string) :
  (forall (dir : string) (sep : ascii) (file : string),
     p = (dir ++ String sep file)%string -> isSlash sep = true ->
     plainName file = true ->
     getFilename p = (if JS.falsy file then p else file)) /\
  (plainName p = true -> getFilename p = p) /\
  (getFilename p = "" -> p = "") /\
  (name (toFileItem p) <> "" -> getFilename p = name (toFileItem p)).
Proof.
  conjs.
  - intros dir sep file -> Hsep Hfile. unfold getFilename.
    rewrite (last_segment _ _ _ Hsep Hfile). reflexivity.
  - intros Hplain. unfold getFilename. rewrite (split_plain _ Hplain).
    cbn. unfold JS.orElse. destruct (JS.falsy p) eqn:E; [reflexivity|reflexivity].
  - unfold getFilename, JS.orElse.
    destruct (JS.falsy (JS.lastOr (JS.split isSlash p) "")) eqn:E.
    + intros H; exact H.
    + intros H. rewrite H in E. discriminate E.
  - unfold toFileItem, getFilename, JS.orElse, JS.lastOr. cbn [name].
    pose proof (split_nonempty p) as Hne.
    assert (Hlast : forall d, List.last (JS.split isSlash p) d
                              = List.last (JS.split isSlash p) "").
    { intros d. destruct (JS.split isSlash p) as [|s l]; [contradiction|].
      clear Hne. revert s. induction l as [|s' l IH]; intros s; [reflexivity|].
      change (List.last (s :: s' :: l) d) with (List.last (s' :: l) d).
      change (List.last (s :: s' :: l) "") with (List.last (s' :: l) "").
      apply IH. }
    rewrite (Hlast p). intros Hname.
    destruct (List.last (JS.split isSlash p) "") eqn:E;
      [contradiction|reflexivity].
Qed.

Lemma find_first {A} (p : A -> bool) (l : list A) (x : A) :
  List.find p l = Some x <->
  exists before after_,
    l = before ++ x :: after_ /\
    Forall (fun y => p y = false) before /\ p x = true.
Proof.
  induction l as [|y l IH]; simpl.
  - split; [discriminate|]. intros (before & after_ & Heq & _).
    destruct before; discriminate Heq.
  - destruct (p y) eqn:Hy.
    + split.
      * intros [= ->]. exists [], l. conjs; [reflexivity|constructor|exact Hy].
      * intros (before & after_ & Heq & Hall & Hx).
        destruct before as [|z before]; simpl in Heq.
        -- injection Heq as -> _. reflexivity.
        -- injection Heq as -> _. apply Forall_cons_iff in Hall.
           destruct Hall as [Hz _]. rewrite Hz in Hy. discriminate Hy.
    + rewrite IH. split.
      * intros (before & after_ & -> & Hall & Hx).
        exists (y :: before), after_.
        conjs; [reflexivity|constructor; assumption|exact Hx].
      * intros (before & after_ & Heq & Hall & Hx).
        destruct before as [|z before]; simpl in Heq.
        -- injection Heq as -> _. rewrite Hx in Hy. discriminate Hy.
        -- injection Heq as -> ->. apply Forall_cons_iff in Hall.
           exists before, after_. conjs; [reflexivity|apply Hall|exact Hx].
Qed.

Lemma find_nothing {A} (p : A -> bool) (l : list A) :
  List.find p l = None <-> Forall (fun y => p y = false) l.
Proof.
  induction l as [|y l IH]; simpl.
  - split; [constructor|reflexivity].
  - destruct (p y) eqn:Hy.
    + split; [discriminate|]. intros Hall. apply Forall_cons_iff in Hall.
      destruct Hall as [Hz _]. rewrite Hz in Hy. discriminate Hy.
    + rewrite IH. split.
      * intros Hall. constructor; assumption.
      * intros Hall. apply Forall_cons_iff in Hall. apply Hall.
Qed.

Lemma hasOutput_iff (f : FileResult) :
  isSuccess f && JS.truthy (outputPath f) = true <-> hasOutput f.
Proof.
  unfold hasOutput, isSuccess. split.
  - intros H. apply andb_true_iff in H. destruct H as [Hs Ht].
    split; [destruct (status f); try discriminate Hs; reflexivity|].
    destruct (outputPath f) as [out|]; [|discriminate Ht].
    exists out. split; [reflexivity|]. intros ->. discriminate Ht.
  - intros [Hs (out & Ho & Hne)]. rewrite Hs, Ho. simpl.
    destruct out; [contradiction|reflexivity].
Qed.

Lemma no_output_iff (f : FileResult) :
  isSuccess f && JS.truthy (outputPath f) = false <-> ~ hasOutput f.
Proof.
  rewrite <- hasOutput_iff.
  destruct (isSuccess f && JS.truthy (outputPath f)); split;
    try discriminate; try reflexivity; intros H; exfalso; apply H; reflexivity.
Qed.

(** X17: Open Output Folder asks for the directory of the first file of
    the result that succeeded with an output path, wherever the later
    files were written, and for nothing when there is no result or no such
    file. *)
Theorem open_folder_needs_a_successful_file (result : option BatchResult) :
  (forall folder,
     handleOpenFolder result = Some folder <->
     exists r before f after_ out,
       result = Some r /\
       files r = before ++ f :: after_ /\
       Forall (fun g => ~ hasOutput g) before /\
       status f = success /\ outputPath f = Some out /\ out <> "" /\
       folder = getDirectoryPath out) /\
  (handleOpenFolder result = None <->
   result = None \/
   exists r, result = Some r /\ Forall (fun g => ~ hasOutput g) (files r)) /\
  (forall r, result = Some r ->
     Forall (fun f => status f <> success) (files r) ->
     handleOpenFolder result = None).
Proof.
  assert (Hnone : forall l : list FileResult,
            Forall (fun y => isSuccess y && JS.truthy (outputPath y) = false) l
            <-> Forall (fun g => ~ hasOutput g) l).
  { intros l. rewrite !Forall_forall. split; intros H g Hg;
      apply no_output_iff; apply H; exact Hg. }
  assert (Hopen : forall r,
            handleOpenFolder (Some r)
            = match List.find (fun f => isSuccess f && JS.truthy (outputPath f))
                              (files r) with
              | Some f =>
                  match outputPath f with
                  | Some out =>
                      if JS.falsy out then None else Some (getDirectoryPath out)
                  | None => None
                  end
              | None => None
              end) by reflexivity.
  split; [|split].
  - intros folder. split.
    + destruct result as [r|]; [|discriminate]. rewrite Hopen.
      destruct (List.find _ (files r)) as [f|] eqn:Hfind; [|discriminate].
      apply find_first in Hfind.
      destruct Hfind as (before & after_ & Hfiles & Hbefore & Hf).
      apply hasOutput_iff in Hf. destruct Hf as [Hs (out & Ho & Hne)].
      rewrite Ho. destruct (JS.falsy out) eqn:Hfalsy;
        [destruct out; [contradiction|discriminate Hfalsy]|].
      intros [= <-]. exists r, before, f, after_, out.
      conjs; try reflexivity; try assumption. apply Hnone. exact Hbefore.
    + intros (r & before & f & after_ & out & -> & Hfiles & Hbefore & Hs & Ho
              & Hne & ->).
      rewrite Hopen.
      assert (Hfind : List.find (fun f => isSuccess f && JS.truthy (outputPath f))
                                (files r) = Some f).
      { apply find_first. exists before, after_.
        conjs; [exact Hfiles|apply Hnone; exact Hbefore|].
        apply hasOutput_iff. split; [exact Hs|].
        exists out. split; [exact Ho|exact Hne]. }
      rewrite Hfind, Ho. destruct out; [contradiction|reflexivity].
  - split.
    + destruct result as [r|]; [|intros _; left; reflexivity].
      rewrite Hopen. intros H. right. exists r. split; [reflexivity|].
      destruct (List.find _ (files r)) as [f|] eqn:Hfind.
      * exfalso. apply find_first in Hfind.
        destruct Hfind as (_ & _ & _ & _ & Hf).
        apply hasOutput_iff in Hf. destruct Hf as [_ (out & Ho & Hne)].
        rewrite Ho in H. destruct out; [contradiction|discriminate H].
      * apply Hnone. apply find_nothing. exact Hfind.
    + intros [-> | (r & -> & Hall)]; [reflexivity|].
      rewrite Hopen. apply Hnone, find_nothing in Hall. rewrite Hall.
      reflexivity.
  - intros r -> Hall. rewrite Hopen.
    assert (Hfind : List.find (fun f => isSuccess f && JS.truthy (outputPath f))
                              (files r) = None).
    { apply find_nothing. rewrite Forall_forall in *. intros g Hg.
      apply no_output_iff. intros [Hs _]. exact (Hall g Hg Hs). }
    rewrite Hfind. reflexivity.
Qed.

End SummaryFacts.

(* ================================================================== *)
(** * Placing the watermark: presets, snapping, dragging                *)
(* ================================================================== *)


Module PlacementFacts.
Import Types WatermarkStore Canvas PreviewCanvas.
Local Open Scope Q_scope.









Lemma clamp_bounds (v : Q) :
  0 <= JS.Math_max 0 (JS.Math_min 1 v) /\ JS.Math_max 0 (JS.Math_min 1 v) <= 1.
Proof.
  unfold JS.Math_max, JS.Math_min. split.
  - apply Q.le_max_l.
  - apply Q.max_lub; [discriminate|apply Q.le_min_l].
Qed.

Lemma le_ltb_false (a b : Q) : a <= b -> WatermarkStore.ltb b a = false.
Proof.
  intros H. unfold WatermarkStore.ltb. apply negb_false_iff.
  apply Qle_bool_iff. exact H.
Qed.

(** X21: dropping the watermark always stores a position in range.  For
    an image of positive size, the update a drag sends switches to custom
    mode with a custom position inside the unit square, so
    [updateConfig] stores it exactly as sent, and since it touches no
    other key the active preset stays. *)
Theorem handleDragEnd_sends_an_in_range_position
    (st : Store) (source d : Dimensions) (x y : Q) :
  0 < width source -> 0 < height source ->
  exists partial pos,
    handleDragEnd (Some source) (Some d) x y = Some partial /\
    p_positionMode partial = Some custom /\
    p_customPosition partial = Some pos /\
    inUnitSquare pos /\
    outOfRange pos = false /\
    customPosition (config (updateConfig st partial)) = Some pos /\
    positionMode (config (updateConfig st partial)) = Some custom /\
    activePresetId (updateConfig st partial) = activePresetId st.
Proof.
  intros HW HH. unfold handleDragEnd. eexists. eexists.
  split; [reflexivity|]. split; [reflexivity|]. split; [reflexivity|].
  set (pos := {| px := _; py := _ |}).
  assert (Hin : inUnitSquare pos).
  { unfold inUnitSquare, pos. cbn [px py].
    split; [apply clamp_bounds|]. split; [apply clamp_bounds|].
    split; apply clamp_bounds. }
  assert (Hout : outOfRange pos = false).
  { destruct Hin as (H1 & H2 & H3 & H4). unfold outOfRange.
    rewrite (le_ltb_false _ _ H1), (le_ltb_false _ _ H2),
      (le_ltb_false _ _ H3), (le_ltb_false _ _ H4). reflexivity. }
  split; [exact Hin|]. split; [exact Hout|].
  unfold updateConfig. cbn [p_customPosition config activePresetId].
  cbn [spread positionMode overOpt p_positionMode].
  rewrite Hout. cbn. conjs; reflexivity.
Qed.

Lemma handleDragEnd_far_outside_the_image :
  let source := {| width := 1920; height := 1080 |} in
  let d := {| width := 300; height := 48 |} in
  0 < width source /\ 0 < height source /\
  exists partial,
    handleDragEnd (Some source) (Some d) 5000 (-700) = Some partial /\
    customPosition
      (config (updateConfig (store (firstRender None None)) partial))
    = Some {| px := 1; py := 0 |}.
Proof.
  cbv zeta. split; [reflexivity|]. split; [reflexivity|].
  destruct (handleDragEnd_sends_an_in_range_position
              (store (firstRender None None))
              {| width := 1920; height := 1080 |}
              {| width := 300; height := 48 |} 5000 (-700)
              eq_refl eq_refl)
    as (partial & pos & Hsent & _ & Hpos & _ & _ & Hstored & _).
  exists partial. split; [exact Hsent|].
  rewrite Hstored. compute in Hsent. injection Hsent as <-.
  injection Hpos as <-. reflexivity.
Defined.



(** X24: switching between a preset position and the custom position.
    Choosing a preset in the Position select puts the configuration in
    preset mode at that preset, keeps the custom position in the
    configuration, and makes the preview place the watermark by the
    preset; it is an edit of [position], so an active preset is cleared.
    Choosing Custom afterwards brings back custom mode with the custom
    position exactly as it was. *)
Theorem preset_position_and_back_to_custom
    (st : Store) (p : WatermarkPosition) (source : Dimensions)
    (text image : option Dimensions) :
  let st1 := WatermarkControls.send st
               (WatermarkControls.handlePositionChange
                  (WatermarkControls.choosePreset p)) in
  let st2 := WatermarkControls.send st1
               (WatermarkControls.handlePositionChange
                  WatermarkControls.chooseCustom) in
  let wm := watermarkSize (config st) text image in
  positionMode (config st1) = Some preset /\
  position (config st1) = p /\
  customPosition (config st1) = customPosition (config st) /\
  watermarkPosition (Some source) (config st1) text image
    = calculatePosition p (width source) (height source)
                        (width wm) (height wm) /\
  (JS.truthy (activePresetId st) = true -> activePresetId st1 = None) /\
  positionMode (config st2) = Some custom /\
  position (config st2) = p /\
  customPosition (config st2) = customPosition (config st) /\
  activePresetId st2 = activePresetId st1 /\
  WatermarkControls.send st
    (WatermarkControls.handlePositionChange WatermarkControls.noChoice) = st.
Proof.
  cbv zeta. cbn [WatermarkControls.handlePositionChange WatermarkControls.send].
  unfold updateConfig, watermarkPosition, watermarkSize.
  cbn [p_customPosition config activePresetId withPositionMode emptyPartial
       isSubstantialChange isSome orb andb p_watermarkType p_text p_imagePath
       p_position p_opacity p_textColor p_fontSize p_fontFamily p_imageScale
       p_positionMode].
  cbn [spread positionMode position customPosition watermarkType over overOpt
       p_positionMode p_position p_customPosition p_watermarkType].
  destruct (customPosition (config st)); conjs; try reflexivity;
    intros ->; reflexivity.
Qed.

End PlacementFacts.

(* ================================================================== *)
(** * The File Classifier on whole paths                                *)
(* ================================================================== *)

Module ClassifierFacts.
Import Types FileSelection Conduct.

Lemma split_append_plain (a b : string) :
  plainName b = true ->
  JS.split isSlash (a ++ b)
  = List.removelast (JS.split isSlash a)
    ++ [(List.last (JS.split isSlash a) "" ++ b)%string].
Proof.
  intros Hb. induction a as [|c a IH].
  - simpl. apply SummaryFacts.split_plain. exact Hb.
  - pose proof (SummaryFacts.split_nonempty a) as Hne.
    cbn [append JS.split]. rewrite IH.
    destruct (JS.split isSlash a) as [|s1 rest]; [contradiction|].
    destruct (isSlash c).
    + reflexivity.
    + destruct rest as [|s2 rest]; reflexivity.
Qed.

Lemma name_of_appended (a b : string) :
  plainName b = true ->
  name (toFileItem (a ++ b)) = (name (toFileItem a) ++ b)%string.
Proof.
  intros Hb. unfold toFileItem, JS.lastOr. cbn [name].
  rewrite (split_append_plain a b Hb), last_last.
  pose proof (SummaryFacts.split_nonempty a) as Hne.
  f_equal. destruct (JS.split isSlash a) as [|s l]; [contradiction|].
  clear Hne. revert s. induction l as [|s' l IH]; intros s; [reflexivity|].
  change (List.last (s :: s' :: l) "") with (List.last (s' :: l) "").
  change (List.last (s :: s' :: l) a) with (List.last (s' :: l) a).
  apply IH.
Qed.

Lemma plain_dot_ext (ext : string) :
  plainName ext = true -> plainName (String "." ext) = true.
Proof. intros H. unfold plainName in *. simpl. exact H. Qed.

Lemma trailing_dot_no_extension (stem : string) :
  execExtension (stem ++ ".") = None.
Proof.
  induction stem as [|c stem IH]; [reflexivity|].
  cbn [append execExtension].
  rewrite (FileSelectionFacts.dotted_suffix_has_dot stem ""), andb_false_r.
  exact IH.
Qed.

Lemma no_dot_no_extension (s : string) :
  JS.allChars (fun d => negb (isDot d)) s = true -> execExtension s = None.
Proof.
  induction s as [|c s IH]; [reflexivity|]. simpl.
  intros H. apply andb_true_iff in H. destruct H as [Hc Hs].
  apply negb_true_iff in Hc. rewrite Hc. simpl. apply IH. exact Hs.
Qed.

Lemma type_by_extension (p : string) :
  type (toFileItem p)
  = if JS.includes IMAGE_EXTENSIONS (getExtension (name (toFileItem p)))
    then image else video.
Proof. reflexivity. Qed.

(** X25: the kind of a file depends only on what follows the last dot of
    its path, whatever its letter case and whatever dots and separators
    come before.  For a path that ends in a dot and a non-empty extension
    free of dots and separators, the file is an image exactly when the
    lower-cased extension is an image extension.  A name that ends in a
    dot, or has no dot at all, has the empty extension and is a video. *)
Theorem classification_reads_the_last_extension (stem ext : string) :
  JS.falsy ext = false ->
  JS.allChars (fun d => negb (isDot d)) ext = true ->
  plainName ext = true ->
  let item := toFileItem (stem ++ String "." ext) in
  name item = (name (toFileItem stem) ++ String "." ext)%string /\
  getExtension (name item) = JS.toLowerCase ext /\
  (type item = image <-> In (JS.toLowerCase ext) IMAGE_EXTENSIONS) /\
  type (toFileItem (stem ++ ".")) = video /\
  type (toFileItem ext) = video.
Proof.
  intros Hne Hnodot Hplain. cbv zeta.
  pose proof (name_of_appended stem (String "." ext) (plain_dot_ext _ Hplain))
    as Hname.
  assert (Hext : getExtension (name (toFileItem (stem ++ String "." ext)))
                 = JS.toLowerCase ext).
  { rewrite Hname.
    apply FileSelectionFacts.getExtension_of_dotted; assumption. }
  conjs.
  - exact Hname.
  - exact Hext.
  - rewrite type_by_extension, Hext.
    pose proof (JSFacts.existsb_eqb_In IMAGE_EXTENSIONS (JS.toLowerCase ext))
      as Hinc.
    destruct (JS.includes IMAGE_EXTENSIONS (JS.toLowerCase ext)).
    + split; [intros _; apply Hinc; reflexivity|reflexivity].
    + split; [discriminate|]. intros Hin. apply Hinc in Hin. discriminate Hin.
  - rewrite type_by_extension, (name_of_appended stem "." eq_refl).
    unfold getExtension. rewrite trailing_dot_no_extension. reflexivity.
  - rewrite type_by_extension.
    assert (Hn : name (toFileItem ext) = ext).
    { unfold toFileItem, JS.lastOr. cbn [name].
      rewrite (SummaryFacts.split_plain _ Hplain). reflexivity. }
    rewrite Hn. unfold getExtension.
    rewrite (no_dot_no_extension _ Hnodot). reflexivity.
Qed.

Lemma classification_of_an_upper_case_photo :
  JS.falsy "JPG" = false /\
  type (toFileItem "C:\shots.2024\IMG_0001.JPG") = image.
Proof.
  split; [reflexivity|].
  destruct (classification_reads_the_last_extension
              "C:\shots.2024\IMG_0001" "JPG" eq_refl eq_refl eq_refl)
    as (_ & _ & Himg & _).
  apply Himg. vm_compute. tauto.
Defined.

End ClassifierFacts.

(* ================================================================== *)
(** * Disposal after registration                                       *)
(* ================================================================== *)

Module DisposalFacts.
Import Types Processor Observation Scenarios.

(** A batch runs to its end, then the hook is disposed of. *)
Lemma cleanup_after_a_finished_batch :
  let trace :=
    [CallProcessBatch sampleFiles sampleConfig "/output";
     EmitProgress {| filePath := "/input/a.jpg"; fileIndex := 0;
                     totalFiles := 2; pstatus := st_complete |};
     InvokeSettled fulfilled;
     EmitComplete {| files := []; total := 2; successful := 2;
                     br_failed := 0 |}] in
  List.forallb notUnmount trace = true /\
  listeners (step (steps registered trace) Unmount) = [] /\
  unlistenCalls (step (steps registered trace) Unmount)
  = [watermark_progress; watermark_complete].
Proof.
  cbv zeta. split; [reflexivity|].
  destruct (CleanupFacts.cleanup_after_registration_unlistens_each_once
              [CallProcessBatch sampleFiles sampleConfig "/output";
               EmitProgress {| filePath := "/input/a.jpg"; fileIndex := 0;
                               totalFiles := 2; pstatus := st_complete |};
               InvokeSettled fulfilled;
               EmitComplete {| files := []; total := 2; successful := 2;
                               br_failed := 0 |}] eq_refl)
    as (Hl & Hu & _).
  split; [exact Hl|exact Hu].
Defined.

End DisposalFacts.
